(** * Message routing of the MPC test drivers and the JNI bridge

    A shallow embedding of the C sources under [sdk2/]:

    - [convert_round1_to_messages] (test_corrected_keygen.c, and copied
      verbatim into test_complete_ecdsa.c, test_complete_ed25519.c and, as
      [convert_round_to_messages], into test_refresh.c): the routine that
      scans every peer's round output for the entry ["<id>":{...}] addressed
      to one party and aggregates the spans found into a ["[...]"] array;
    - the inline copy of the same scan in [main] of test_complete_ed25519.c;
    - the five-step two-party ECDSA signing run of [main] in
      test_complete_ecdsa.c;
    - the error paths of the JNI bindings of mpc_jni.c.

    C strings are lists of characters: a [char*] pointing into a
    NUL-terminated buffer is the list of the bytes from the pointee up to the
    terminator, so the empty list is a pointer at the terminator, pointer
    increment is [tl] and a pointer difference is a difference of lengths.
    [int] values are in [Z]; the counters of the scans stay below the length
    of the string scanned, and the one sum that can leave the range of [int],
    [total_size], is computed with the range checked.  Console output is
    left out. *)

From Stdlib Require Import ZArith Ascii String DecimalString Bool Lia List.
Import ListNotations.
Open Scope Z_scope.

(** ** C strings *)

Module CString.

(** The characters of a C string before its terminating NUL. *)
Definition cstring := list ascii.

Definition dquote : ascii := "034"%char.
Definition lbrace : ascii := "{"%char.
Definition rbrace : ascii := "}"%char.
Definition colon : ascii := ":"%char.
Definition comma : ascii := ","%char.
Definition lbracket : ascii := "["%char.
Definition rbracket : ascii := "]"%char.

(** A string literal of the source, as a list of characters. *)
Definition lit (s : string) : cstring := list_ascii_of_string s.

(** A literal in which the apostrophe stands for the double quote. *)
Definition qlit (s : string) : cstring :=
  map (fun c => if Ascii.eqb c "'"%char then dquote else c) (lit s).

Definition strlen (s : cstring) : Z := Z.of_nat (length s).

(** [strncmp(s, p, strlen(p)) == 0]. *)
Fixpoint starts_with (p s : cstring) : bool :=
  match p, s with
  | [], _ => true
  | _ :: _, [] => false
  | a :: p', b :: s' => Ascii.eqb a b && starts_with p' s'
  end.

(** [strstr(haystack, needle)]: the suffix of [haystack] that begins at
    the first occurrence of [needle], [None] for a null result. *)
Fixpoint strstr (haystack needle : cstring) : option cstring :=
  if starts_with needle haystack then Some haystack
  else match haystack with
       | [] => None
       | _ :: rest => strstr rest needle
       end.

(** [strchr(s, c)] for a character [c] other than NUL. *)
Fixpoint strchr (s : cstring) (c : ascii) : option cstring :=
  match s with
  | [] => None
  | a :: rest => if Ascii.eqb a c then Some s else strchr rest c
  end.

(** [sprintf(buf, "%d", n)]. *)
Definition sprintf_d (n : Z) : cstring :=
  lit (NilZero.string_of_int (Z.to_int n)).

End CString.

Import CString.

(** ** The aggregation routine

    [convert_round1_to_messages] of test_corrected_keygen.c.  The copies in
    test_complete_ecdsa.c (also as [convert_round2_to_messages]),
    test_complete_ed25519.c and test_refresh.c ([convert_round_to_messages])
    have the same text up to the names of the parameters. *)

Module Router.

(** [sprintf(target_key, "\"%d\":", target_party)].  The array
    [target_key] has 10 bytes, which hold the key and its terminator for
    [-99999 <= target_party <= 999999]; the drivers pass 1, 2 and 3. *)
Definition target_key (target_party : Z) : cstring :=
  dquote :: sprintf_d target_party ++ [dquote; colon].

(** The body of the [do ... while (brace_count > 0 && *msg_end)] loop
    followed by its test; the result is the pair of [brace_count] and
    [msg_end] when the loop is left.  The loop is entered with [msg_end]
    at a character of the string, never at the terminator. *)
Fixpoint brace_scan (brace_count : Z) (msg_end : cstring) : Z * cstring :=
  match msg_end with
  | [] => (brace_count, [])
  | c :: msg_end' =>
      let brace_count' :=
        if Ascii.eqb c lbrace then brace_count + 1
        else if Ascii.eqb c rbrace then brace_count - 1
        else brace_count in
      if (0 <? brace_count') && negb (match msg_end' with [] => true | _ => false end)
      then brace_scan brace_count' msg_end'
      else (brace_count', msg_end')
  end.

(** The search of one peer's [output] for the entry of [target_party]:
    the part of the loop body between the self test and the appends.  The
    result is the pair of [msg_start] and [msg_end]; [None] stands for each
    of the three [continue]s. *)
Definition locate (output : cstring) (target_party : Z)
  : option (cstring * cstring) :=
  match strstr output (target_key target_party) with
  | None => None
  | Some target_pos =>
      match strchr target_pos lbrace with
      | None => None
      | Some msg_start =>
          let '(brace_count, msg_end) := brace_scan 0 msg_start in
          if negb (brace_count =? 0) then None
          else Some (msg_start, msg_end)
      end
  end.

(** [msg_end - msg_start]. *)
Definition ptrdiff (msg_end msg_start : cstring) : nat :=
  (length msg_start - length msg_end)%nat.

(** The characters between [msg_start] and [msg_end]. *)
Definition span_of (loc : cstring * cstring) : cstring :=
  firstn (ptrdiff (snd loc) (fst loc)) (fst loc).

(** The payload the routine takes from [output] for [target_party]. *)
Definition extract (output : cstring) (target_party : Z) : option cstring :=
  option_map span_of (locate output target_party).

(** The heap buffer [result]: the string it holds and the number of bytes
    of the allocation written so far (the terminator counts).  The string
    is the one the calls build when the allocation has room for it;
    [written] is what they require of the allocation. *)
Record buffer := { str : cstring; written : Z }.

Definition strcpy (src : cstring) : buffer :=
  {| str := src; written := strlen src + 1 |}.

Definition strcat (dest : buffer) (src : cstring) : buffer :=
  {| str := str dest ++ src;
     written := Z.max (written dest) (strlen (str dest) + strlen src + 1) |}.

(** [strncat(dest, src, n)] copies at most [n] characters of [src] and
    then the terminator. *)
Definition strncat (dest : buffer) (src : cstring) (n : nat) : buffer :=
  strcat dest (firstn n src).

Record state := { result : buffer; message_count : Z }.

(** One iteration of the main loop, for index [i].  The arrays have [count]
    elements; an index beyond the list reads the empty string. *)
Definition loop_body (round1_outputs : list cstring) (target_party : Z)
           (st : state) (i : nat) : state :=
  let from_party := Z.of_nat i + 1 in
  if from_party =? target_party then st
  else
    let output := nth i round1_outputs [] in
    match locate output target_party with
    | None => st
    | Some (msg_start, msg_end) =>
        let result' :=
          if 0 <? message_count st then strcat (result st) [comma]
          else result st in
        {| result := strncat result' msg_start (ptrdiff msg_end msg_start);
           message_count := message_count st + 1 |}
    end.

(** [for (int i = 0; i < count; i++)]. *)
Definition indices (count : Z) : list nat := seq 0 (Z.to_nat count).

(** The range of [int]. *)
Definition INT_MIN : Z := -2147483648.
Definition INT_MAX : Z := 2147483647.

(** The [int] of value [v]; [None] when [v] is out of range, where C leaves
    the arithmetic undefined. *)
Definition int_of (v : Z) : option Z :=
  if (INT_MIN <=? v) && (v <=? INT_MAX) then Some v else None.

(** [total_size += round1_lens[i] * 2]. *)
Definition add_len (round1_lens : list Z) (total_size : option Z) (i : nat)
  : option Z :=
  match total_size with
  | None => None
  | Some t =>
      match int_of (nth i round1_lens 0 * 2) with
      | None => None
      | Some twice => int_of (t + twice)
      end
  end.

(** [total_size], the argument of [malloc]. *)
Definition total_size (round1_lens : list Z) (count : Z) : option Z :=
  fold_left (add_len round1_lens) (indices count) (Some 1000).

Definition convert_loop (round1_outputs : list cstring) (count : Z)
           (target_party : Z) : state :=
  fold_left (loop_body round1_outputs target_party) (indices count)
            {| result := strcpy [lbracket]; message_count := 0 |}.

Definition convert_buffer (round1_outputs : list cstring) (count : Z)
           (target_party : Z) : buffer :=
  strcat (result (convert_loop round1_outputs count target_party)) [rbracket].

Definition convert_round1_to_messages (round1_outputs : list cstring)
           (round1_lens : list Z) (count : Z) (target_party : Z) : cstring :=
  str (convert_buffer round1_outputs count target_party).

End Router.

Import Router.

(** ** The inline copy of the scan in [main] of test_complete_ed25519.c

    [main] locates the message for P1 in P2's round output (and the other
    way round, for rounds 2 and 3) with the statements of the routine above
    written out in place, and wraps what it finds in brackets. *)

Module Ed25519Main.

(** [sprintf(buf, "[%.*s]", msg_len, msg_start)]. *)
Definition sprintf_bracketed (msg_len : nat) (msg_start : cstring) : cstring :=
  lbracket :: firstn msg_len msg_start ++ [rbracket].

(** From [strstr(round_data, target_key)] to the [sprintf] that builds the
    input of the next engine round.  [None] is [goto cleanup]. *)
Definition formatted_input (round_data target_key : cstring) : option cstring :=
  match strstr round_data target_key with
  | None => None
  | Some target_pos =>
      match strchr target_pos lbrace with
      | None => None
      | Some msg_start =>
          let '(_, msg_end) := brace_scan 0 msg_start in
          let msg_len := ptrdiff msg_end msg_start in
          Some (sprintf_bracketed msg_len msg_start)
      end
  end.

(** [sprintf(target_key_p1, "\"1\":")] and [sprintf(target_key_p2, "\"2\":")]. *)
Definition target_key_p1 : cstring := [dquote; "1"%char; dquote; colon].
Definition target_key_p2 : cstring := [dquote; "2"%char; dquote; colon].

Definition formatted_input_p1 (p2_round1_data : cstring) : option cstring :=
  formatted_input p2_round1_data target_key_p1.

Definition formatted_input_p2 (p1_round1_data : cstring) : option cstring :=
  formatted_input p1_round1_data target_key_p2.

End Ed25519Main.

(** ** The copies in test_refresh.c

    [convert_round_to_messages] is [convert_round1_to_messages] with the
    parameters renamed.  [test_refresh] itself routes the refresh rounds with
    a variant of the scan written out in its loops over the parties. *)

Module Refresh.

Definition TOTAL_PARTIES : Z := 3.

Definition convert_round_to_messages (round_outputs : list cstring)
           (round_lens : list Z) (count : Z) (target_party : Z) : cstring :=
  convert_round1_to_messages round_outputs round_lens count target_party.

(** [MessageData]; [data] is NULL ([None]) after the [memset]. *)
Record MessageData := { data : option cstring; len : Z }.

(** The loop [while] that runs as long as [msg_end] is not at the terminator
    and [brace_count > 0]. *)
Fixpoint brace_while (brace_count : Z) (msg_end : cstring) : Z * cstring :=
  match msg_end with
  | [] => (brace_count, [])
  | c :: msg_end' =>
      if 0 <? brace_count
      then brace_while (if Ascii.eqb c lbrace then brace_count + 1
                        else if Ascii.eqb c rbrace then brace_count - 1
                        else brace_count) msg_end'
      else (brace_count, msg_end)
  end.

(** The body of the loop over [j], for party index [i]; the state is
    [aggregated_messages] and [first]. *)
Definition inner_body (round_messages : list MessageData) (i : Z)
           (st : cstring * bool) (j : nat) : cstring * bool :=
  let '(aggregated_messages, first) := st in
  if Z.of_nat j =? i then st
  else
    match data (nth j round_messages {| data := None; len := 0 |}) with
    | None => st
    | Some msg_data =>
        if negb (2 <? strlen msg_data) then st
        else
          match strstr msg_data (target_key (i + 1)) with
          | None => st
          | Some target_msg =>
              let target_msg := skipn (length (target_key (i + 1))) target_msg in
              match target_msg with
              | [] => st
              | c :: after_brace =>
                  if negb (Ascii.eqb c lbrace) then st
                  else
                    let '(brace_count, msg_end) := brace_while 1 after_brace in
                    if negb (brace_count =? 0) then st
                    else
                      let aggregated_messages :=
                        if first then aggregated_messages
                        else aggregated_messages ++ [comma] in
                      let msg_len := ptrdiff msg_end target_msg in
                      let extracted_msg := firstn msg_len target_msg in
                      (aggregated_messages ++ extracted_msg, false)
              end
          end
    end.

(** The string passed to [go_refresh_round2] (and, for the second round's
    messages, to [go_refresh_round3]) for party index [i]. *)
Definition aggregated_messages (round_messages : list MessageData) (i : Z) : cstring :=
  fst (fold_left (inner_body round_messages i) (indices TOTAL_PARTIES)
                 ([lbracket], true))
  ++ [rbracket].

End Refresh.

(** ** Notions used to state the properties *)

Module Spec.

(** Spans separated by commas. *)
Fixpoint join (spans : list cstring) : cstring :=
  match spans with
  | [] => []
  | [s] => s
  | s :: rest => s ++ comma :: join rest
  end.

Definition brace_delta (c : ascii) : Z :=
  if Ascii.eqb c lbrace then 1 else if Ascii.eqb c rbrace then -1 else 0.

(** Opening braces minus closing braces. *)
Fixpoint depth (s : cstring) : Z :=
  match s with
  | [] => 0
  | c :: rest => brace_delta c + depth rest
  end.

(** A span that opens with a brace, whose depth is positive strictly
    inside and zero at its end. *)
Definition brace_balanced (s : cstring) : Prop :=
  (exists rest, s = lbrace :: rest)
  /\ depth s = 0
  /\ forall k, (0 < k < length s)%nat -> 0 < depth (firstn k s).

(** The depth of a scan entered at depth [d] stays positive strictly
    inside [span]. *)
Definition positive_inside (d : Z) (span : cstring) : Prop :=
  forall k, (0 < k < length span)%nat -> 0 < d + depth (firstn k span).

(** [key] occurs in [pre ++ key] at the end only: in a text that starts
    with [pre ++ key], the first occurrence of [key] is the one after
    [pre]. *)
Definition first_occurrence (pre key : cstring) : Prop :=
  forall pre' suf', pre ++ key = pre' ++ key ++ suf' -> suf' = [].

(** The spans the routine takes from the peers, in the order of the array:
    sender [i + 1] is left out when it is the target or when nothing is
    extracted from its output. *)
Definition sender_span (round1_outputs : list cstring) (target_party : Z)
           (i : nat) : option cstring :=
  if Z.of_nat i + 1 =? target_party then None
  else extract (nth i round1_outputs []) target_party.

Fixpoint somes {A : Type} (l : list (option A)) : list A :=
  match l with
  | [] => []
  | Some a :: rest => a :: somes rest
  | None :: rest => somes rest
  end.

Definition extracted_spans (round1_outputs : list cstring) (count : Z)
           (target_party : Z) : list cstring :=
  somes (map (sender_span round1_outputs target_party) (indices count)).

(** The invariant of the main loop: the spans [acc] have been appended,
    and the bytes written so far are those of the string and its
    terminator. *)
Record loop_invariant (acc : list cstring) (st : state) : Prop := {
  inv_str : str (result st) = lbracket :: join acc;
  inv_count : message_count st = Z.of_nat (length acc);
  inv_written : written (result st) = strlen (str (result st)) + 1
}.

Definition sumZ (l : list Z) : Z := fold_right Z.add 0 l.

(** The size of the allocation in the words of the property:
    [1000 + sum of 2 * round1_lens[i]]. *)
Definition allocation (round1_lens : list Z) (count : Z) : Z :=
  1000 + sumZ (map (fun i => nth i round1_lens 0 * 2) (indices count)).

(** The bytes one sender adds to the result: its span and at most one
    comma. *)
Definition sender_cost (round1_outputs : list cstring) (target_party : Z)
           (i : nat) : Z :=
  match sender_span round1_outputs target_party i with
  | Some span => strlen span + 1
  | None => 0
  end.

(** The indices of the senders other than the target. *)
Definition senders (count target_party : Z) : list nat :=
  filter (fun i => negb (Z.of_nat i + 1 =? target_party)) (indices count).

(** [output] holds an entry for [target_party]: the key followed by a
    balanced span. *)
Definition contains_entry (output : cstring) (target_party : Z) : Prop :=
  exists pre span post,
    output = pre ++ target_key target_party ++ span ++ post
    /\ brace_balanced span.

(** The text of the key of [target_party] occurs nowhere in [output]. *)
Definition key_absent (output : cstring) (target_party : Z) : Prop :=
  forall pre rest, output <> pre ++ target_key target_party ++ rest.

(** *** The envelope and its encoding *)

(** An envelope: the payloads of one party for its recipients, in order. *)
Definition envelope := list (Z * cstring).

Definition encode_entry (e : Z * cstring) : cstring :=
  target_key (fst e) ++ snd e.

(** Modelled from the spec: the engine that serialises an envelope is not
    part of the sources.  Section 6 gives the wire format as a nested-brace
    associative structure mapping the stringified PartyId to an object
    payload, which the comment in test_refresh.c spells
    [{"target_id":{...}}]: the entries ["<id>":<payload>] separated by
    commas, between braces. *)
Definition encode (env : envelope) : cstring :=
  lbrace :: join (map encode_entry env) ++ [rbrace].

(** The encoded text in front of the entry that follows the entries
    [before]. *)
Definition text_before (before : envelope) : cstring :=
  lbrace :: flat_map (fun e => encode_entry e ++ [comma]) before.

(** The encoded text behind the entry that precedes the entries [after]. *)
Definition text_after (after : envelope) : cstring :=
  match after with
  | [] => []
  | _ :: _ => comma :: join (map encode_entry after)
  end ++ [rbrace].

End Spec.

Import Spec.

(** ** The two-party ECDSA signing run

    The part of [main] of test_complete_ecdsa.c from "P1 Step1" to the
    signature: five calls into the engine, each followed by
    [if (result != 0) { ...; return 1; }].  The engine is not part of the
    sources: it is a parameter of the run. *)

Module EcdsaSign.

(** A buffer the engine hands out: the pointer and the length it reports. *)
Record blob := { data : list ascii; len : Z }.

(** [p1_sign_handle] and [p2_sign_handle]. *)
Inductive role := P1 | P2.

(** The engine functions of the run. *)
Inductive step :=
| sign_step1 | sign_p2_step1 | sign_p1_step2 | sign_p2_step2 | sign_p1_step3.

(** One call of the run: the handle it is made on, the function, the
    buffers passed in and the buffers received, in the order of the
    arguments. *)
Record call := { on : role; fn : step; inputs : list blob; outputs : list blob }.

Section Run.

(** The state behind a sign handle. *)
Variable session : Type.

(** Each engine function returns its result code, the state it leaves
    behind the handle and the buffers it stores through its out-pointers. *)
Variable go_ecdsa_sign_step1 : session -> Z * session * blob.
Variable go_ecdsa_sign_p2_step1 : session -> blob -> Z * session * (blob * blob).
Variable go_ecdsa_sign_p1_step2 : session -> blob -> blob -> Z * session * (blob * blob).
Variable go_ecdsa_sign_p2_step2 : session -> blob -> blob -> Z * session * (blob * blob).
Variable go_ecdsa_sign_p1_step3 : session -> blob -> blob -> Z * session * (blob * blob).

(** The value [main] returns from this part (1 at the first failing call,
    0 when the signature is there) and the calls made. *)
Definition sign_run (p1_sign_handle p2_sign_handle : session) : Z * list call :=
  let '(result, p1_sign_handle, p1_commit) :=
    go_ecdsa_sign_step1 p1_sign_handle in
  let c1 := {| on := P1; fn := sign_step1; inputs := []; outputs := [p1_commit] |} in
  if negb (result =? 0) then (1, [c1]) else
  let '(result, p2_sign_handle, (p2_proof, p2_r2)) :=
    go_ecdsa_sign_p2_step1 p2_sign_handle p1_commit in
  let c2 := {| on := P2; fn := sign_p2_step1;
               inputs := [p1_commit]; outputs := [p2_proof; p2_r2] |} in
  if negb (result =? 0) then (1, [c1; c2]) else
  let '(result, p1_sign_handle, (p1_proof, p1_cmtd)) :=
    go_ecdsa_sign_p1_step2 p1_sign_handle p2_proof p2_r2 in
  let c3 := {| on := P1; fn := sign_p1_step2;
               inputs := [p2_proof; p2_r2]; outputs := [p1_proof; p1_cmtd] |} in
  if negb (result =? 0) then (1, [c1; c2; c3]) else
  let '(result, p2_sign_handle, (p2_ek, p2_affine_proof)) :=
    go_ecdsa_sign_p2_step2 p2_sign_handle p1_cmtd p1_proof in
  let c4 := {| on := P2; fn := sign_p2_step2;
               inputs := [p1_cmtd; p1_proof]; outputs := [p2_ek; p2_affine_proof] |} in
  if negb (result =? 0) then (1, [c1; c2; c3; c4]) else
  let '(result, p1_sign_handle, (signature_r, signature_s)) :=
    go_ecdsa_sign_p1_step3 p1_sign_handle p2_ek p2_affine_proof in
  let c5 := {| on := P1; fn := sign_p1_step3;
               inputs := [p2_ek; p2_affine_proof];
               outputs := [signature_r; signature_s] |} in
  if negb (result =? 0) then (1, [c1; c2; c3; c4; c5])
  else (0, [c1; c2; c3; c4; c5]).

End Run.

Arguments sign_run {session} _ _ _ _ _ _ _.

(** The calls [next] follows [prev] in a run: it is made on the other
    handle, and its inputs are the outputs of [prev]. *)
Definition follows (prev next : call) : Prop :=
  on prev <> on next
  /\ forall b, In b (inputs next) <-> In b (outputs prev).

End EcdsaSign.

(** ** The JNI bindings

    What each binding of mpc_jni.c that calls an engine function with a
    result code does once the call has returned.  The engine is not part of
    the sources: what its call has left behind is the argument. *)

Module Jni.

(** What an engine call leaves behind: the result code, the handle stored
    through [&handle], and up to two buffers with their lengths ([None] for a
    NULL pointer). *)
Record engine_out := {
  engine_result : Z;
  handle : Z;
  out_data : option (list ascii);
  out_len : Z;
  out_data2 : option (list ascii);
  out_len2 : Z
}.

(** The values handed back to the Java caller; every object array the
    bindings build has two elements. *)
Inductive jvalue :=
| jnull
| jlong (v : Z)
| jbyteArray (bytes : list ascii)
| jstring (chars : cstring)
| jobjectArray (first second : jvalue).

(** The exception [ThrowNew] leaves pending. *)
Record jthrowable := { exception_class : string; detail_message : cstring }.

Record jni_result := { returned : jvalue; pending : option jthrowable }.

Definition ret (v : jvalue) : jni_result := {| returned := v; pending := None |}.

(** [snprintf(error_msg, sizeof(error_msg), "<text>: %d", result)] with
    [char error_msg[256]]. *)
Definition snprintf_d (size : nat) (text : string) (result : Z) : cstring :=
  firstn (size - 1) (lit text ++ sprintf_d result).

(** [ThrowNew] of a [java/lang/RuntimeException] with that message, then
    [return v]. *)
Definition throw_runtime (text : string) (result : Z) (v : jvalue) : jni_result :=
  {| returned := v;
     pending := Some {| exception_class := "java/lang/RuntimeException";
                        detail_message := snprintf_d 256 text result |} |}.

(** [NewByteArray(len)] filled by [SetByteArrayRegion(.., 0, len, data)]. *)
Definition byte_array (data : option (list ascii)) (len : Z) : jvalue :=
  jbyteArray (firstn (Z.to_nat len) (match data with Some b => b | None => [] end)).

(** [NewStringUTF(s)]. *)
Definition string_utf (s : option (list ascii)) : jvalue :=
  match s with Some chars => jstring chars | None => jnull end.

Definition is_null (p : option (list ascii)) : bool :=
  match p with None => true | Some _ => false end.

(** [keygenInit], [refreshInit], [ed25519SignInit]. *)
Definition init_binding (o : engine_out) : jni_result :=
  if negb (engine_result o =? 0) then ret (jlong 0)
  else ret (jlong (handle o)).

(** [keygenRound1..3], [refreshRound1..3], [ed25519SignRound1..2]. *)
Definition round_binding (o : engine_out) : jni_result :=
  if negb (engine_result o =? 0) || is_null (out_data o) then ret jnull
  else ret (byte_array (out_data o) (out_len o)).

(** [ed25519SignRound3]: [sigR] and [sigS] are the two buffers. *)
Definition ed25519SignRound3_binding (o : engine_out) : jni_result :=
  if negb (engine_result o =? 0) || is_null (out_data o) || is_null (out_data2 o)
  then ret jnull
  else ret (jobjectArray (string_utf (out_data o)) (string_utf (out_data2 o))).

(** [ecdsaKeygenGenerateP2Params], [ecdsaKeygenP2], [ecdsaSignStep1]. *)
Definition ecdsa_bytes_binding (text : string) (o : engine_out) : jni_result :=
  if negb (engine_result o =? 0) then throw_runtime text (engine_result o) jnull
  else ret (byte_array (out_data o) (out_len o)).

(** [ecdsaKeygenP1], [ecdsaSignP2Step1], [ecdsaSignP1Step2],
    [ecdsaSignP2Step2]. *)
Definition ecdsa_pair_binding (text : string) (o : engine_out) : jni_result :=
  if negb (engine_result o =? 0) then throw_runtime text (engine_result o) jnull
  else ret (jobjectArray (byte_array (out_data o) (out_len o))
                         (byte_array (out_data2 o) (out_len2 o))).

(** [ecdsaSignInitP1Complex], [ecdsaSignInitP2Complex]. *)
Definition ecdsa_init_binding (text : string) (o : engine_out) : jni_result :=
  if negb (engine_result o =? 0) then throw_runtime text (engine_result o) (jlong 0)
  else ret (jlong (handle o)).

(** [ecdsaSignP1Step3]. *)
Definition ecdsa_signature_binding (text : string) (o : engine_out) : jni_result :=
  if negb (engine_result o =? 0) then throw_runtime text (engine_result o) jnull
  else ret (jobjectArray (string_utf (out_data o)) (string_utf (out_data2 o))).

(** The bindings [Java_com_example_mpctest_MPCNative_<name>] whose engine
    call has a result code. *)
Inductive binding :=
| keygenInit | keygenRound1 | keygenRound2 | keygenRound3
| refreshInit | refreshRound1 | refreshRound2 | refreshRound3
| ed25519SignInit | ed25519SignRound1 | ed25519SignRound2 | ed25519SignRound3
| ecdsaKeygenGenerateP2Params | ecdsaKeygenP1 | ecdsaKeygenP2
| ecdsaSignInitP1Complex | ecdsaSignInitP2Complex
| ecdsaSignStep1 | ecdsaSignP2Step1 | ecdsaSignP1Step2 | ecdsaSignP2Step2
| ecdsaSignP1Step3.

Definition MPCNative (b : binding) (o : engine_out) : jni_result :=
  match b with
  | keygenInit | refreshInit | ed25519SignInit => init_binding o
  | keygenRound1 | keygenRound2 | keygenRound3
  | refreshRound1 | refreshRound2 | refreshRound3
  | ed25519SignRound1 | ed25519SignRound2 => round_binding o
  | ed25519SignRound3 => ed25519SignRound3_binding o
  | ecdsaKeygenGenerateP2Params =>
      ecdsa_bytes_binding "ECDSA P2参数生成失败: " o
  | ecdsaKeygenP1 => ecdsa_pair_binding "P1 ECDSA keygen失败: " o
  | ecdsaKeygenP2 => ecdsa_bytes_binding "P2 ECDSA keygen失败: " o
  | ecdsaSignInitP1Complex => ecdsa_init_binding "P1 ECDSA签名初始化失败: " o
  | ecdsaSignInitP2Complex => ecdsa_init_binding "P2 ECDSA签名初始化失败: " o
  | ecdsaSignStep1 => ecdsa_bytes_binding "ECDSA签名Step1失败: " o
  | ecdsaSignP2Step1 => ecdsa_pair_binding "ECDSA签名P2Step1失败: " o
  | ecdsaSignP1Step2 => ecdsa_pair_binding "ECDSA签名P1Step2失败: " o
  | ecdsaSignP2Step2 => ecdsa_pair_binding "ECDSA签名P2Step2失败: " o
  | ecdsaSignP1Step3 => ecdsa_signature_binding "ECDSA签名P1Step3失败: " o
  end.

(** The text in front of the result code in the message of a binding that
    throws. *)
Definition error_text (b : binding) : option string :=
  match b with
  | ecdsaKeygenGenerateP2Params => Some "ECDSA P2参数生成失败: "
  | ecdsaKeygenP1 => Some "P1 ECDSA keygen失败: "
  | ecdsaKeygenP2 => Some "P2 ECDSA keygen失败: "
  | ecdsaSignInitP1Complex => Some "P1 ECDSA签名初始化失败: "
  | ecdsaSignInitP2Complex => Some "P2 ECDSA签名初始化失败: "
  | ecdsaSignStep1 => Some "ECDSA签名Step1失败: "
  | ecdsaSignP2Step1 => Some "ECDSA签名P2Step1失败: "
  | ecdsaSignP1Step2 => Some "ECDSA签名P1Step2失败: "
  | ecdsaSignP2Step2 => Some "ECDSA签名P2Step2失败: "
  | ecdsaSignP1Step3 => Some "ECDSA签名P1Step3失败: "
  | _ => None
  end%string.

(** The bindings of the ECDSA section of the file. *)
Definition is_ecdsa (b : binding) : bool :=
  match b with
  | ecdsaKeygenGenerateP2Params | ecdsaKeygenP1 | ecdsaKeygenP2
  | ecdsaSignInitP1Complex | ecdsaSignInitP2Complex
  | ecdsaSignStep1 | ecdsaSignP2Step1 | ecdsaSignP1Step2 | ecdsaSignP2Step2
  | ecdsaSignP1Step3 => true
  | _ => false
  end.


End Jni.

(** ** Sample rounds *)

Module Sample.

(** The round outputs of three parties, each addressing the other two. *)
Definition round1_outputs : list cstring :=
  [qlit "{'2':{'a':1},'3':{'b':2}}";
   qlit "{'1':{'c':3},'3':{'d':4}}";
   qlit "{'1':{'e':{'f':5}},'2':{'g':6}}"].

Definition round1_lens : list Z := [25; 25; 31].

(** Party 3 has left out its entry for party 1. *)
Definition withheld_outputs : list cstring :=
  [qlit "{'2':{'a':1},'3':{'b':2}}";
   qlit "{'1':{'c':3},'3':{'d':4}}";
   qlit "{'2':{'g':6}}"].

(** No peer has an entry for party 1. *)
Definition silent_outputs : list cstring :=
  [qlit "{'2':{'a':1},'3':{'b':2}}";
   qlit "{'3':{'d':4}}";
   qlit "{'2':{'g':6}}"].

(** Party 2 addresses party 3 with a payload that holds the text of the
    key of party 1 and three opening braces in a string; its entry for
    party 1 follows. *)
Definition nested_outputs : list cstring :=
  [qlit "{'2':{'a':1},'3':{'b':2}}";
   qlit "{'3':{'1':'{{{'},'1':{'k':0}}";
   qlit "{'1':{'e':5},'2':{'g':6}}"].

(** A payload with a closing brace in a string. *)
Definition quoted_brace_envelope : envelope :=
  [(1, qlit "{'a':'}'}")].

(** The payload for party 2 holds an object under the key ["1"]. *)
Definition shadowed_envelope : envelope :=
  [(2, qlit "{'m':{'1':{'x':0}}}"); (1, qlit "{'k':1}")].

Definition sibling_first_envelope : envelope :=
  [(3, qlit "{'1':{'z':9}}"); (1, qlit "{'k':1}")].

Definition sibling_last_envelope : envelope :=
  [(1, qlit "{'k':1}"); (3, qlit "{'1':{'z':9}}")].

(** A round output cut short inside the entry for party 1. *)
Definition truncated_output : cstring := qlit "{'1':{'a':{'b':1}".

(** An engine for the signing run in which every call succeeds; the state
behind a handle counts the calls made on it. *)
Definition blob_of (s : string) : EcdsaSign.blob :=
  {| EcdsaSign.data := lit s; EcdsaSign.len := strlen (lit s) |}.

Definition toy_step1 (h : nat) : Z * nat * EcdsaSign.blob :=
  (0, S h, blob_of "commit").

Definition toy_p2_step1 (h : nat) (commit : EcdsaSign.blob)
  : Z * nat * (EcdsaSign.blob * EcdsaSign.blob) :=
  (0, S h, (blob_of "proof2", blob_of "r2")).

Definition toy_p1_step2 (h : nat) (proof r2 : EcdsaSign.blob)
  : Z * nat * (EcdsaSign.blob * EcdsaSign.blob) :=
  (0, S h, (blob_of "proof1", blob_of "cmtd")).

Definition toy_p2_step2 (h : nat) (cmtd proof : EcdsaSign.blob)
  : Z * nat * (EcdsaSign.blob * EcdsaSign.blob) :=
  (0, S h, (blob_of "ek", blob_of "affine")).

Definition toy_p1_step3 (h : nat) (ek affine : EcdsaSign.blob)
  : Z * nat * (EcdsaSign.blob * EcdsaSign.blob) :=
  (0, S h, (blob_of "r", blob_of "s")).

(** An engine that checks what it is given: each function succeeds only on
    the state its handle must have at that point of a run started on the
    handles 0 (P1) and 10 (P2), and on buffers of the lengths the step
    before it has stored. *)
Definition strict_step1 (h : nat) : Z * nat * EcdsaSign.blob :=
  (if Nat.eqb h 0 then 0 else -2, S h, blob_of "commit").

Definition strict_p2_step1 (h : nat) (commit : EcdsaSign.blob)
  : Z * nat * (EcdsaSign.blob * EcdsaSign.blob) :=
  (if Nat.eqb h 10 && (EcdsaSign.len commit =? 6) then 0 else -2,
   S h, (blob_of "proof2", blob_of "r2")).

Definition strict_p1_step2 (h : nat) (proof r2 : EcdsaSign.blob)
  : Z * nat * (EcdsaSign.blob * EcdsaSign.blob) :=
  (if Nat.eqb h 1 && (EcdsaSign.len proof =? 6) && (EcdsaSign.len r2 =? 2)
   then 0 else -2,
   S h, (blob_of "proof1", blob_of "cmtd")).

Definition strict_p2_step2 (h : nat) (cmtd proof : EcdsaSign.blob)
  : Z * nat * (EcdsaSign.blob * EcdsaSign.blob) :=
  (if Nat.eqb h 11 && (EcdsaSign.len cmtd =? 4) && (EcdsaSign.len proof =? 6)
   then 0 else -2,
   S h, (blob_of "ek", blob_of "affine")).

Definition strict_p1_step3 (h : nat) (ek affine : EcdsaSign.blob)
  : Z * nat * (EcdsaSign.blob * EcdsaSign.blob) :=
  (if Nat.eqb h 2 && (EcdsaSign.len ek =? 2) && (EcdsaSign.len affine =? 6)
   then 0 else -2,
   S h, (blob_of "r", blob_of "s")).

(** [withheld_outputs] as the messages of a refresh round. *)
Definition withheld_messages : list Refresh.MessageData :=
  map (fun s => {| Refresh.data := Some s; Refresh.len := strlen s |})
      withheld_outputs.

End Sample.

(** ** Hexadecimal text

    [string_to_hex] of test_complete_ecdsa.c (the same function is in
    test_complete_ed25519.c) and [print_hex] of test_refresh.c. *)

Module Hex.

(** The digit [printf] writes for a value below 16 with the conversion
    [x]. *)
Definition hex_digit (n : nat) : ascii :=
  nth n (lit "0123456789abcdef") "0"%char.

(** [sprintf(buf, "%02x", (unsigned char)c)]: a value below 256 takes
    exactly two digits. *)
Definition sprintf_02x (c : ascii) : cstring :=
  [hex_digit (nat_of_ascii c / 16); hex_digit (nat_of_ascii c mod 16)].

(** The memory [malloc] returns: nothing written, no string yet. *)
Definition fresh : buffer := {| str := []; written := 0 |}.

(** [sprintf(dest + offset, ...)] producing the text [s], for an [offset]
    not beyond the end of the string in [dest]: the text and its terminator
    replace what followed. *)
Definition sprintf_at (dest : buffer) (offset : nat) (s : cstring) : buffer :=
  {| str := firstn offset (str dest) ++ s;
     written := Z.max (written dest) (Z.of_nat offset + strlen s + 1) |}.

(** The body of the loop of [string_to_hex] for index [i]. *)
Definition hex_body (input : cstring) (hex_output : buffer) (i : nat) : buffer :=
  sprintf_at hex_output (i * 2) (sprintf_02x (nth i input "000"%char)).

(** [hex_output] when [string_to_hex] returns it: the loop, then
    [hex_output[input_len * 2] = 0]. *)
Definition string_to_hex_buffer (input : cstring) : buffer :=
  let input_len := length input in
  sprintf_at (fold_left (hex_body input) (seq 0 input_len) fresh)
             (input_len * 2) [].

(** [input_len * 2 + 1], the argument of [malloc]. *)
Definition hex_size (input : cstring) : Z := strlen input * 2 + 1.

(** [string_to_hex]; [allocated] tells whether [malloc] has returned memory,
    [None] is the NULL result. *)
Definition string_to_hex (allocated : bool) (input : cstring) : option cstring :=
  if negb allocated then None
  else Some (str (string_to_hex_buffer input)).

(** The text [print_hex(data, len, max_bytes)] prints; [data] is the memory
    at the pointer. *)
Definition print_hex (data : list ascii) (len max_bytes : Z) : cstring :=
  let print_len := if len <? max_bytes then len else max_bytes in
  flat_map (fun i => sprintf_02x (nth i data "000"%char))
           (seq 0 (Z.to_nat print_len))
  ++ (if max_bytes <? len then lit "..." else []).

(** *** Reading hexadecimal text back *)

Definition hex_value (c : ascii) : option nat :=
  let n := nat_of_ascii c in
  if (48 <=? n)%nat && (n <=? 57)%nat then Some (n - 48)%nat
  else if (97 <=? n)%nat && (n <=? 102)%nat then Some (n - 87)%nat
  else None.

Definition is_hex_digit (c : ascii) : bool :=
  match hex_value c with Some _ => true | None => false end.

(** The bytes a text of lowercase hexadecimal digit pairs stands for. *)
Fixpoint hex_decode (s : cstring) : option (list ascii) :=
  match s with
  | [] => Some []
  | [_] => None
  | hi :: lo :: rest =>
      match hex_value hi, hex_value lo, hex_decode rest with
      | Some h, Some l, Some bytes => Some (ascii_of_nat (h * 16 + l) :: bytes)
      | _, _, _ => None
      end
  end.

End Hex.

(** ** The routine of test_new_ecdsa_functions.c

    This file has a [convert_round_to_messages] of its own, which looks for
    a field ["data"] in each peer's output instead of the entry of the
    target. *)

Module NewEcdsa.

(** The literal ["\"data\":"]. *)
Definition data_key : cstring := dquote :: lit "data" ++ [dquote; colon].

(** [if (i != target_party - 1) total_len += lens[i] + 1]. *)
Definition add_len (lens : list Z) (target_party : Z) (total_len : option Z)
           (i : nat) : option Z :=
  match total_len with
  | None => None
  | Some t =>
      if negb (Z.of_nat i =? target_party - 1) then
        match int_of (nth i lens 0 + 1) with
        | None => None
        | Some d => int_of (t + d)
        end
      else Some t
  end.

(** [total_len] after its loop. *)
Definition total_len (lens : list Z) (total_parties target_party : Z) : option Z :=
  fold_left (add_len lens target_party) (indices total_parties) (Some 2).

(** [total_len + 100], the argument of [malloc]. *)
Definition malloc_size (lens : list Z) (total_parties target_party : Z) : option Z :=
  match total_len lens total_parties target_party with
  | None => None
  | Some t => int_of (t + 100)
  end.

(** One iteration of the main loop, for index [i]. *)
Definition loop_body (outputs : list cstring) (target_party : Z)
           (st : state) (i : nat) : state :=
  if Z.of_nat i =? target_party - 1 then st
  else
    let result' :=
      if 0 <? message_count st then strcat (result st) [comma]
      else result st in
    let skipped := {| result := result'; message_count := message_count st |} in
    let output := nth i outputs [] in
    match strstr output data_key with
    | None => skipped
    | Some msg_start =>
        match strchr msg_start dquote with
        | None => skipped
        | Some msg_start =>
            let msg_start := tl msg_start in
            match strchr msg_start dquote with
            | None => skipped
            | Some msg_end =>
                {| result := strncat result' msg_start (ptrdiff msg_end msg_start);
                   message_count := message_count st + 1 |}
            end
        end
    end.

Definition convert_loop (outputs : list cstring) (total_parties target_party : Z)
  : state :=
  fold_left (loop_body outputs target_party) (indices total_parties)
            {| result := strcpy [lbracket]; message_count := 0 |}.

Definition convert_buffer (outputs : list cstring) (total_parties target_party : Z)
  : buffer :=
  strcat (result (convert_loop outputs total_parties target_party)) [rbracket].

Definition convert_round_to_messages (outputs : list cstring) (lens : list Z)
           (total_parties target_party : Z) : cstring :=
  str (convert_buffer outputs total_parties target_party).

(** *** Notions used to state its properties *)

(** The text of the key occurs in [output]. *)
Definition has_data (output : cstring) : Prop :=
  exists pre rest, output = pre ++ data_key ++ rest.

(** The test [if (msg_start)] after [strstr(output, "\"data\":")]. *)
Definition found (output : cstring) : bool :=
  match strstr output data_key with Some _ => true | None => false end.

(** The indices the loop does not pass over. *)
Definition peers (total_parties target_party : Z) : list nat :=
  filter (fun i => negb (Z.of_nat i =? target_party - 1)) (indices total_parties).

(** What the loop appends for the peers with the flags [found], [seen]
    telling whether a message has been counted before. *)
Fixpoint pieces (seen : bool) (found : list bool) : cstring :=
  match found with
  | [] => []
  | f :: rest =>
      (if seen then [comma] else [])
        ++ (if f then lit "data" else [])
        ++ pieces (seen || f) rest
  end.

(** The invariant of the main loop. *)
Record loop_inv (seen : bool) (body : cstring) (st : state) : Prop := {
  data_inv_str : str (result st) = lbracket :: body;
  data_inv_seen : (0 <? message_count st) = seen;
  data_inv_count : 0 <= message_count st;
  data_inv_written : written (result st) = strlen (str (result st)) + 1
}.

End NewEcdsa.

(** ** Notions for the loops of [test_refresh] *)

Module RefreshLoops.

(** [malloc(20000)], the buffer [aggregated_messages]. *)
Definition aggregated_size : Z := 20000.

(** An element of a [MessageData] array that has not been filled. *)
Definition unset : Refresh.MessageData :=
  {| Refresh.data := None; Refresh.len := 0 |}.

(** The string an element holds, the empty string for NULL. *)
Definition text (m : Refresh.MessageData) : cstring :=
  match Refresh.data m with Some s => s | None => [] end.

(** The state of the loop of [test_refresh] and the state of the loop of
    [convert_round_to_messages] hold the same string, and [first] is set
    exactly when no message has been counted. *)
Definition same_state (inline : cstring * bool) (st : state) : Prop :=
  fst inline = str (result st)
  /\ snd inline = negb (0 <? message_count st)
  /\ 0 <= message_count st.

(** The entry of [target_party] in [output], if the text of its key occurs
    at all, opens right behind the first occurrence of the key. *)
Definition entry_follows_key (output : cstring) (target_party : Z) : Prop :=
  key_absent output target_party
  \/ exists pre rest,
      output = pre ++ target_key target_party ++ lbrace :: rest
      /\ first_occurrence pre (target_key target_party).

(** The bytes of the message of party index [j] the loops for party index
    [i] may copy: none of the party's own message. *)
Definition peer_bytes (round_messages : list Refresh.MessageData) (i : Z)
           (j : nat) : Z :=
  if Z.of_nat j =? i then 0 else strlen (text (nth j round_messages unset)).

End RefreshLoops.

(** * What the Java caller gets back from mpc_jni.c *)

Module JniReturn.

Import Jni.

(** The bindings declared [jlong]: they hand back the handle. *)
Definition is_init (b : binding) : bool :=
  match b with
  | keygenInit | refreshInit | ed25519SignInit
  | ecdsaSignInitP1Complex | ecdsaSignInitP2Complex => true
  | _ => false
  end.

(** The out-pointers a binding of the first three sections tests against
    NULL beside the result code, as the fields of [engine_out]. *)
Definition null_tested (b : binding) (o : engine_out) : list (option (list ascii)) :=
  match b with
  | keygenRound1 | keygenRound2 | keygenRound3
  | refreshRound1 | refreshRound2 | refreshRound3
  | ed25519SignRound1 | ed25519SignRound2 => [out_data o]
  | ed25519SignRound3 => [out_data o; out_data2 o]
  | _ => []
  end.

End JniReturn.

(** * What a record of the signing run stands for *)

Module EcdsaReplay.

Import EcdsaSign.

Section Engine.

Variable session : Type.
Variable go_ecdsa_sign_step1 : session -> Z * session * blob.
Variable go_ecdsa_sign_p2_step1 : session -> blob -> Z * session * (blob * blob).
Variable go_ecdsa_sign_p1_step2 : session -> blob -> blob -> Z * session * (blob * blob).
Variable go_ecdsa_sign_p2_step2 : session -> blob -> blob -> Z * session * (blob * blob).
Variable go_ecdsa_sign_p1_step3 : session -> blob -> blob -> Z * session * (blob * blob).

(** The engine function [f] called on the state [h] behind a handle with
    the buffers [ins], in the order of its parameters: the result code, the
    state it leaves and the buffers it stores, in the order of its
    out-pointers.  [None] when [ins] has not as many buffers as the
    function has input parameters. *)
Definition engine_call (f : step) (h : session) (ins : list blob)
  : option (Z * session * list blob) :=
  match f, ins with
  | sign_step1, [] =>
      let '(result, h, out) := go_ecdsa_sign_step1 h in
      Some (result, h, [out])
  | sign_p2_step1, [commit] =>
      let '(result, h, (out1, out2)) := go_ecdsa_sign_p2_step1 h commit in
      Some (result, h, [out1; out2])
  | sign_p1_step2, [proof; r2] =>
      let '(result, h, (out1, out2)) := go_ecdsa_sign_p1_step2 h proof r2 in
      Some (result, h, [out1; out2])
  | sign_p2_step2, [cmtd; proof] =>
      let '(result, h, (out1, out2)) := go_ecdsa_sign_p2_step2 h cmtd proof in
      Some (result, h, [out1; out2])
  | sign_p1_step3, [ek; affine_proof] =>
      let '(result, h, (out1, out2)) := go_ecdsa_sign_p1_step3 h ek affine_proof in
      Some (result, h, [out1; out2])
  | _, _ => None
  end.

(** The states behind [p1_sign_handle] and [p2_sign_handle]. *)
Definition behind (r : role) (handles : session * session) : session :=
  match r with P1 => fst handles | P2 => snd handles end.

Definition leave (r : role) (h : session) (handles : session * session)
  : session * session :=
  match r with P1 => (h, snd handles) | P2 => (fst handles, h) end.

(** The records [calls] are calls of the engine made one after the other,
    starting on the states [handles], with the result codes [codes]: each
    is the function it names, called on the state its handle has by then
    with the inputs recorded, and has stored the outputs recorded. *)
Fixpoint replays (handles : session * session) (calls : list call)
         (codes : list Z) : Prop :=
  match calls, codes with
  | [], [] => True
  | c :: calls, result :: codes =>
      exists h,
        engine_call (fn c) (behind (on c) handles) (inputs c)
        = Some (result, h, outputs c)
        /\ replays (leave (on c) h handles) calls codes
  | _, _ => False
  end.

End Engine.

Arguments engine_call {session} _ _ _ _ _ _ _ _.
Arguments behind {session} _ _.
Arguments leave {session} _ _ _.
Arguments replays {session} _ _ _ _ _ _ _ _.

End EcdsaReplay.

(** * Properties *)

(** ** Examples *)

Example sprintf_d_12 : sprintf_d 12 = lit "12". Proof. reflexivity. Qed.
Example sprintf_d_0 : sprintf_d 0 = lit "0". Proof. reflexivity. Qed.
Example sprintf_d_neg : sprintf_d (-305) = lit "-305". Proof. reflexivity. Qed.
Example target_key_1 : target_key 1 = qlit "'1':". Proof. reflexivity. Qed.

Example convert_three_parties :
  convert_round1_to_messages Sample.round1_outputs Sample.round1_lens 3 1
  = qlit "[{'c':3},{'e':{'f':5}}]".
Proof. reflexivity. Qed.

Example convert_three_parties_size :
  written (convert_buffer Sample.round1_outputs 3 1) = 24
  /\ total_size Sample.round1_lens 3 = Some 1162.
Proof. split; reflexivity. Qed.

(** ** The string functions *)

Lemma starts_with_app (p s : cstring) : starts_with p (p ++ s) = true.
Proof.
  induction p as [|a p IH]; simpl; [reflexivity|].
  now rewrite Ascii.eqb_refl, IH.
Qed.

Lemma starts_with_inv (p s : cstring) :
  starts_with p s = true -> exists r, s = p ++ r.
Proof.
  revert s; induction p as [|a p IH]; intros s H; simpl in *.
  - now exists s.
  - destruct s as [|b s]; [discriminate|].
    apply andb_true_iff in H as [Hab Hps].
    apply Ascii.eqb_eq in Hab; subst b.
    destruct (IH _ Hps) as [r ->]. now exists r.
Qed.

(** A prefix of [x ++ y] no longer than [x] is a prefix of [x]. *)
Lemma app_prefix_short {A : Type} (n x y r : list A) :
  x ++ y = n ++ r -> (length n <= length x)%nat -> exists suf, x = n ++ suf.
Proof.
  revert x; induction n as [|a n IH]; intros x H Hlen; simpl in *.
  - now exists x.
  - destruct x as [|b x]; simpl in *; [lia|].
    injection H as -> H.
    destruct (IH x H ltac:(lia)) as [suf ->]. now exists suf.
Qed.

Lemma strstr_Some_inv (haystack needle suf : cstring) :
  strstr haystack needle = Some suf ->
  exists pre, haystack = pre ++ suf /\ starts_with needle suf = true.
Proof.
  induction haystack as [|a h IH]; simpl.
  - destruct (starts_with needle []) eqn:E; [|discriminate].
    intros [= <-]. now exists [].
  - destruct (starts_with needle (a :: h)) eqn:E.
    + intros [= <-]. now exists [].
    + intros H. destruct (IH H) as [pre [-> Hs]]. now exists (a :: pre).
Qed.

(** [strstr] stops at the first occurrence. *)
Lemma strstr_first (pre needle rest : cstring) :
  first_occurrence pre needle ->
  strstr (pre ++ needle ++ rest) needle = Some (needle ++ rest).
Proof.
  induction pre as [|a pre IH]; intros Hfirst.
  - simpl. destruct needle as [|b n]; simpl.
    + now destruct rest.
    + now rewrite Ascii.eqb_refl, starts_with_app.
  - simpl.
    destruct (starts_with needle (a :: pre ++ needle ++ rest)) eqn:E.
    + exfalso. apply starts_with_inv in E as [r Hr].
      assert (Hlen : (length needle <= length ((a :: pre) ++ needle))%nat)
        by (rewrite length_app; lia).
      assert (Heq : ((a :: pre) ++ needle) ++ rest = needle ++ r)
        by (rewrite <- app_assoc; exact Hr).
      destruct (app_prefix_short _ _ _ _ Heq Hlen) as [suf Hsuf].
      assert (Hnil : suf = []) by (apply (Hfirst [] suf); exact Hsuf).
      subst suf. rewrite app_nil_r in Hsuf.
      apply (f_equal (@length _)) in Hsuf.
      rewrite length_app in Hsuf. simpl in Hsuf. lia.
    + apply IH. intros pre' suf' H.
      apply (Hfirst (a :: pre') suf'). simpl. now rewrite H.
Qed.

Lemma strstr_None_no_occurrence (haystack needle : cstring) :
  strstr haystack needle = None ->
  forall pre rest, haystack <> pre ++ needle ++ rest.
Proof.
  induction haystack as [|a h IH]; simpl; intros H pre rest Heq.
  - destruct (starts_with needle []) eqn:E; [discriminate|].
    destruct pre; [|discriminate]. simpl in Heq.
    rewrite Heq, starts_with_app in E. discriminate.
  - destruct (starts_with needle (a :: h)) eqn:E; [discriminate|].
    destruct pre as [|b pre]; simpl in Heq.
    + rewrite Heq, starts_with_app in E. discriminate.
    + injection Heq as _ Heq. exact (IH H pre rest Heq).
Qed.

Lemma strchr_Some_inv (s suf : cstring) (c : ascii) :
  strchr s c = Some suf ->
  exists pre rest, s = pre ++ suf /\ suf = c :: rest.
Proof.
  induction s as [|a s IH]; simpl; [discriminate|].
  destruct (Ascii.eqb a c) eqn:E.
  - intros [= <-]. apply Ascii.eqb_eq in E; subst a. now exists [], s.
  - intros H. destruct (IH H) as [pre [rest [-> ->]]]. now exists (a :: pre), rest.
Qed.

Lemma strchr_skip (pre rest : cstring) (c : ascii) :
  ~ In c pre -> strchr (pre ++ c :: rest) c = Some (c :: rest).
Proof.
  induction pre as [|a pre IH]; simpl; intros Hnot.
  - now rewrite Ascii.eqb_refl.
  - destruct (Ascii.eqb a c) eqn:E.
    + apply Ascii.eqb_eq in E. tauto.
    + apply IH. tauto.
Qed.

(** ** The key *)

Lemma string_of_uint_no_brace (d : Decimal.uint) :
  ~ In lbrace (lit (NilEmpty.string_of_uint d)).
Proof.
  unfold lit.
  induction d; simpl; intros H;
    try (destruct H as [H|H]; [discriminate H | exact (IHd H)]); exact H.
Qed.

Lemma sprintf_d_no_brace (n : Z) : ~ In lbrace (sprintf_d n).
Proof.
  unfold sprintf_d, NilZero.string_of_int.
  destruct (Z.to_int n) as [d|d]; unfold NilZero.string_of_uint.
  - destruct d; try apply (string_of_uint_no_brace (_ _)).
    simpl. intros [H|[]]. discriminate H.
  - change (lit (String "-" ?s)) with ("-"%char :: lit s).
    destruct d; simpl; intros [H|H]; try discriminate H;
      try (destruct H as [H|H]; [discriminate H|]);
      try (exact (string_of_uint_no_brace _ H)); exact H.
Qed.

Lemma target_key_no_brace (target_party : Z) : ~ In lbrace (target_key target_party).
Proof.
  unfold target_key. simpl. intros [H|H]; [discriminate H|].
  apply in_app_or in H as [H|H].
  - exact (sprintf_d_no_brace _ H).
  - simpl in H. destruct H as [H|[H|[]]]; discriminate H.
Qed.

(** ** The brace scan *)

Lemma brace_scan_cons (d : Z) (c : ascii) (s : cstring) :
  brace_scan d (c :: s) =
  if (0 <? d + brace_delta c) && negb (match s with [] => true | _ => false end)
  then brace_scan (d + brace_delta c) s
  else (d + brace_delta c, s).
Proof.
  unfold brace_delta. simpl.
  destruct (Ascii.eqb c lbrace); [reflexivity|].
  destruct (Ascii.eqb c rbrace); [reflexivity|].
  now rewrite Z.add_0_r.
Qed.

Lemma positive_inside_tail (d : Z) (c : ascii) (span : cstring) :
  positive_inside d (c :: span) -> positive_inside (d + brace_delta c) span.
Proof.
  intros H k Hk. specialize (H (S k)). simpl in H. lia.
Qed.

(** The scan stops right after a span whose depth returns to zero at its
    end and not before. *)
Lemma brace_scan_span (span rest : cstring) (d : Z) :
  span <> [] -> d + depth span = 0 -> positive_inside d span ->
  brace_scan d (span ++ rest) = (0, rest).
Proof.
  revert d; induction span as [|c span IH]; intros d Hne Hd Hin; [congruence|].
  simpl app. rewrite brace_scan_cons. simpl in Hd.
  destruct span as [|c' span'].
  - simpl in Hd. rewrite Z.add_0_r in Hd.
    replace (d + brace_delta c) with 0 by lia. reflexivity.
  - assert (H1 : 0 < d + brace_delta c).
    { specialize (Hin 1%nat). simpl in Hin. lia. }
    apply Z.ltb_lt in H1. rewrite H1. simpl app at 1. cbv iota. cbn [andb negb].
    apply IH; [discriminate | lia | now apply positive_inside_tail].
Qed.

(** What the scan has passed over when it stops. *)
Lemma brace_scan_inv (s : cstring) (d b : Z) (e : cstring) :
  s <> [] -> brace_scan d s = (b, e) ->
  exists span, s = span ++ e /\ span <> [] /\ b = d + depth span
               /\ positive_inside d span.
Proof.
  revert d; induction s as [|c s IH]; intros d Hne H; [congruence|].
  rewrite brace_scan_cons in H.
  destruct ((0 <? d + brace_delta c)
            && negb (match s with [] => true | _ => false end)) eqn:E.
  - apply andb_true_iff in E as [Hpos Hs].
    apply Z.ltb_lt in Hpos.
    destruct s as [|c' s']; [discriminate|].
    destruct (IH (d + brace_delta c) ltac:(discriminate) H)
      as [span [Heq [Hsp [Hb Hin]]]].
    exists (c :: span). repeat split.
    + simpl. now rewrite Heq.
    + discriminate.
    + simpl. lia.
    + intros k Hk. destruct k as [|k]; [lia|]. simpl.
      destruct k as [|k]; [simpl; lia|].
      specialize (Hin (S k)). simpl in Hk.
      assert (Hlt : (0 < S k < length span)%nat) by lia.
      specialize (Hin Hlt). simpl in Hin |- *. lia.
  - injection H as <- <-. exists [c]. repeat split.
    + discriminate.
    + simpl. lia.
    + intros k Hk. simpl in Hk. lia.
Qed.

Lemma span_of_app (span e : cstring) : span_of (span ++ e, e) = span.
Proof.
  unfold span_of, ptrdiff. simpl. rewrite length_app.
  replace (length span + length e - length e)%nat with (length span) by lia.
  rewrite firstn_app, firstn_all, Nat.sub_diag. simpl. apply app_nil_r.
Qed.

(** ** Extraction of one entry *)

(** What [locate] has found when it succeeds. *)
Lemma locate_Some_inv (output : cstring) (target_party : Z) (msg_start msg_end : cstring) :
  locate output target_party = Some (msg_start, msg_end) ->
  exists pre span,
    output = pre ++ span ++ msg_end
    /\ msg_start = span ++ msg_end
    /\ brace_balanced span.
Proof.
  unfold locate.
  destruct (strstr output (target_key target_party)) as [target_pos|] eqn:Hstr;
    [|discriminate].
  destruct (strchr target_pos lbrace) as [start|] eqn:Hchr; [|discriminate].
  destruct (brace_scan 0 start) as [brace_count e] eqn:Hscan.
  destruct (brace_count =? 0) eqn:Hzero; simpl; [|discriminate].
  intros [= <- <-]. apply Z.eqb_eq in Hzero. subst brace_count.
  apply strstr_Some_inv in Hstr as [pre1 [-> _]].
  apply strchr_Some_inv in Hchr as [pre2 [rest [-> ->]]].
  apply brace_scan_inv in Hscan as [span [Heq [Hne [Hd Hin]]]]; [|discriminate].
  exists (pre1 ++ pre2), span. rewrite Heq, <- app_assoc. repeat split.
  - destruct span as [|c span]; [congruence|].
    injection Heq as <- _. now exists span.
  - lia.
  - exact Hin.
Qed.

Lemma extract_Some_inv (output : cstring) (target_party : Z) (span : cstring) :
  extract output target_party = Some span ->
  brace_balanced span /\ exists pre post, output = pre ++ span ++ post.
Proof.
  unfold extract.
  destruct (locate output target_party) as [[msg_start msg_end]|] eqn:Hloc;
    [|discriminate].
  simpl. intros [= <-].
  apply locate_Some_inv in Hloc as [pre [span [-> [-> Hbal]]]].
  rewrite span_of_app. split; [exact Hbal|]. now exists pre, msg_end.
Qed.

(** The entry is found when the text of the key does not occur before it. *)
Lemma locate_entry (pre span post : cstring) (target_party : Z) :
  first_occurrence pre (target_key target_party) ->
  brace_balanced span ->
  locate (pre ++ target_key target_party ++ span ++ post) target_party
  = Some (span ++ post, post).
Proof.
  intros Hfirst [[rest ->] [Hd Hin]]. unfold locate.
  rewrite (strstr_first _ _ _ Hfirst).
  change ((lbrace :: rest) ++ post) with (lbrace :: (rest ++ post)).
  rewrite (strchr_skip _ _ _ (target_key_no_brace target_party)).
  change (lbrace :: (rest ++ post)) with ((lbrace :: rest) ++ post).
  rewrite (brace_scan_span (lbrace :: rest) post 0);
    [reflexivity | discriminate | lia | exact Hin].
Qed.

Lemma extract_entry (pre span post : cstring) (target_party : Z) :
  first_occurrence pre (target_key target_party) ->
  brace_balanced span ->
  extract (pre ++ target_key target_party ++ span ++ post) target_party
  = Some span.
Proof.
  intros Hfirst Hbal. unfold extract.
  rewrite (locate_entry _ _ _ _ Hfirst Hbal). simpl. now rewrite span_of_app.
Qed.

(** ** Deciding the side conditions on concrete strings *)

Lemma brace_scan_balanced (rest : cstring) :
  brace_scan 0 (lbrace :: rest) = (0, []) -> brace_balanced (lbrace :: rest).
Proof.
  intros H. apply brace_scan_inv in H as [span [Heq [Hne [Hd Hin]]]]; [|discriminate].
  rewrite app_nil_r in Heq. subst span.
  split; [now exists rest | split; [lia | exact Hin]].
Qed.

(** The suffix at the first occurrence is the longest one. *)
Lemma strstr_longest (haystack needle suf : cstring) :
  strstr haystack needle = Some suf ->
  forall pre rest, haystack = pre ++ needle ++ rest ->
                   (length (needle ++ rest) <= length suf)%nat.
Proof.
  induction haystack as [|a h IH]; simpl; intros H pre rest Heq.
  - destruct (starts_with needle []); [|discriminate].
    injection H as <-. apply (f_equal (@length _)) in Heq.
    rewrite length_app in Heq. simpl in Heq. lia.
  - destruct (starts_with needle (a :: h)) eqn:E.
    + injection H as <-. rewrite Heq, !length_app. lia.
    + destruct pre as [|b pre]; simpl in Heq.
      * rewrite Heq, starts_with_app in E. discriminate.
      * injection Heq as _ Heq. exact (IH H pre rest Heq).
Qed.

Lemma first_occurrence_strstr (pre key : cstring) :
  strstr (pre ++ key) key = Some key -> first_occurrence pre key.
Proof.
  intros H pre' suf' Heq.
  pose proof (strstr_longest _ _ _ H pre' suf' Heq) as Hlen.
  rewrite length_app in Hlen.
  destruct suf'; [reflexivity | simpl in Hlen; lia].
Qed.

(** The side conditions of the lemmas above on closed strings, by running
    the scan and the search. *)
Ltac balanced_span :=
  match goal with
  | |- brace_balanced (qlit (String _ ?s)) =>
      apply (brace_scan_balanced (qlit s)); reflexivity
  | |- brace_balanced (lbrace :: ?rest) =>
      apply (brace_scan_balanced rest); reflexivity
  end.

Ltac first_key := apply first_occurrence_strstr; reflexivity.

Lemma key_absent_strstr (output : cstring) (target_party : Z) :
  strstr output (target_key target_party) = None -> key_absent output target_party.
Proof. intros H pre rest. now apply strstr_None_no_occurrence. Qed.

Lemma key_absent_extract (output : cstring) (target_party : Z) :
  key_absent output target_party -> extract output target_party = None.
Proof.
  intros H. unfold extract, locate.
  destruct (strstr output (target_key target_party)) as [suf|] eqn:E; [|reflexivity].
  exfalso. apply strstr_Some_inv in E as [pre [-> Hs]].
  apply starts_with_inv in Hs as [r ->]. exact (H pre r eq_refl).
Qed.

(** ** The main loop *)

Lemma join_snoc (acc : list cstring) (s : cstring) :
  join (acc ++ [s]) =
  match acc with [] => s | _ :: _ => join acc ++ comma :: s end.
Proof.
  induction acc as [|a acc IH]; [reflexivity|].
  destruct acc as [|b acc]; [reflexivity|].
  change (join ((a :: b :: acc) ++ [s])) with (a ++ comma :: join ((b :: acc) ++ [s])).
  rewrite IH. change (join (a :: b :: acc)) with (a ++ comma :: join (b :: acc)).
  now rewrite <- app_assoc.
Qed.

Lemma somes_app {A : Type} (l1 l2 : list (option A)) :
  somes (l1 ++ l2) = somes l1 ++ somes l2.
Proof.
  induction l1 as [|[a|] l1 IH]; simpl; [reflexivity | now rewrite IH | exact IH].
Qed.

Lemma strlen_app (s1 s2 : cstring) : strlen (s1 ++ s2) = strlen s1 + strlen s2.
Proof. unfold strlen. rewrite length_app. lia. Qed.

Lemma strcat_written (b : buffer) (s : cstring) :
  written b = strlen (str b) + 1 ->
  written (strcat b s) = strlen (str (strcat b s)) + 1.
Proof.
  intros H. unfold strcat. simpl. rewrite strlen_app, H.
  unfold strlen. lia.
Qed.

Lemma loop_body_sender_span (round1_outputs : list cstring) (target_party : Z)
      (st : state) (i : nat) :
  loop_body round1_outputs target_party st i =
  match sender_span round1_outputs target_party i with
  | None => st
  | Some span =>
      {| result := strcat (if 0 <? message_count st
                           then strcat (result st) [comma] else result st) span;
         message_count := message_count st + 1 |}
  end.
Proof.
  unfold loop_body, sender_span, extract.
  destruct (Z.of_nat i + 1 =? target_party); [reflexivity|].
  now destruct (locate (nth i round1_outputs []) target_party) as [[msg_start msg_end]|].
Qed.

Lemma loop_body_invariant (round1_outputs : list cstring) (target_party : Z)
      (acc : list cstring) (st : state) (i : nat) :
  loop_invariant acc st ->
  loop_invariant (acc ++ somes [sender_span round1_outputs target_party i])
        (loop_body round1_outputs target_party st i).
Proof.
  intros [Hstr Hcount Hwritten]. rewrite loop_body_sender_span.
  destruct (sender_span round1_outputs target_party i) as [span|]; simpl.
  - rewrite Hcount. destruct acc as [|a acc].
    + simpl. split; simpl.
      * now rewrite Hstr.
      * reflexivity.
      * now apply strcat_written.
    + replace (0 <? Z.of_nat (length (a :: acc))) with true
        by (symmetry; apply Z.ltb_lt; simpl length; lia).
      split.
      * cbn [result str strcat]. rewrite Hstr, join_snoc.
        cbn [app]. now rewrite <- app_assoc.
      * cbn [message_count]. rewrite length_app. simpl length. lia.
      * cbn [result]. now apply strcat_written, strcat_written.
  - rewrite app_nil_r. now split.
Qed.

Lemma fold_loop_invariant (round1_outputs : list cstring) (target_party : Z)
      (l : list nat) (acc : list cstring) (st : state) :
  loop_invariant acc st ->
  loop_invariant (acc ++ somes (map (sender_span round1_outputs target_party) l))
        (fold_left (loop_body round1_outputs target_party) l st).
Proof.
  revert acc st; induction l as [|i l IH]; intros acc st H; simpl fold_left.
  - simpl. now rewrite app_nil_r.
  - change (map ?f (i :: l)) with ([f i] ++ map f l).
    rewrite somes_app, app_assoc. apply IH. now apply loop_body_invariant.
Qed.

Lemma convert_loop_invariant (round1_outputs : list cstring) (count target_party : Z) :
  loop_invariant (extracted_spans round1_outputs count target_party)
        (convert_loop round1_outputs count target_party).
Proof.
  unfold convert_loop, extracted_spans.
  apply (fold_loop_invariant round1_outputs target_party (indices count) []).
  now split.
Qed.

(** The string the routine returns. *)
Lemma convert_round1_to_messages_eq (round1_outputs : list cstring)
      (round1_lens : list Z) (count target_party : Z) :
  convert_round1_to_messages round1_outputs round1_lens count target_party
  = lbracket :: join (extracted_spans round1_outputs count target_party)
      ++ [rbracket].
Proof.
  unfold convert_round1_to_messages, convert_buffer. simpl.
  now rewrite (inv_str _ _ (convert_loop_invariant round1_outputs count target_party)).
Qed.

Lemma message_count_eq (round1_outputs : list cstring) (count target_party : Z) :
  message_count (convert_loop round1_outputs count target_party)
  = Z.of_nat (length (extracted_spans round1_outputs count target_party)).
Proof. apply (inv_count _ _ (convert_loop_invariant _ _ _)). Qed.

(** ** Balanced spans *)

Lemma depth_app (s1 s2 : cstring) : depth (s1 ++ s2) = depth s1 + depth s2.
Proof. induction s1 as [|c s1 IH]; simpl; [reflexivity | rewrite IH; lia]. Qed.

Lemma brace_delta_neg (c : ascii) : brace_delta c < 0 -> c = rbrace.
Proof.
  unfold brace_delta. destruct (Ascii.eqb c lbrace); [lia|].
  destruct (Ascii.eqb c rbrace) eqn:E; [|lia].
  intros _. now apply Ascii.eqb_eq.
Qed.

(** A balanced span closes with a brace. *)
Lemma brace_balanced_ends (s : cstring) :
  brace_balanced s -> exists inner, s = lbrace :: inner ++ [rbrace].
Proof.
  intros [[rest ->] [Hd Hin]].
  destruct (exists_last (l := rest)) as [inner [c ->]].
  { intros ->. simpl in Hd. discriminate Hd. }
  exists inner. f_equal. f_equal.
  specialize (Hin (length (lbrace :: inner))).
  change (lbrace :: inner ++ [c]) with ((lbrace :: inner) ++ [c]) in Hin, Hd.
  rewrite firstn_app, firstn_all, Nat.sub_diag, app_nil_r in Hin.
  rewrite depth_app in Hd. simpl depth at 2 in Hd.
  rewrite length_app in Hin. simpl length in Hin.
  f_equal. apply brace_delta_neg. lia.
Qed.

Lemma brace_balanced_length (s : cstring) : brace_balanced s -> (2 <= length s)%nat.
Proof.
  intros H. destruct (brace_balanced_ends s H) as [inner ->].
  simpl. rewrite length_app. simpl. lia.
Qed.

Lemma extracted_spans_balanced (round1_outputs : list cstring) (count target_party : Z) :
  Forall brace_balanced (extracted_spans round1_outputs count target_party).
Proof.
  unfold extracted_spans. induction (indices count) as [|i l IH]; simpl.
  - constructor.
  - destruct (sender_span round1_outputs target_party i) as [span|] eqn:E; [|exact IH].
    constructor; [|exact IH].
    unfold sender_span in E.
    destruct (Z.of_nat i + 1 =? target_party); [discriminate|].
    now apply extract_Some_inv in E.
Qed.

(** ** Counting the senders *)

Lemma senders_seq_length (target_party : Z) (n a : nat) :
  Z.of_nat (length (filter (fun i => negb (Z.of_nat i + 1 =? target_party)) (seq a n)))
  = if (Z.of_nat a + 1 <=? target_party) && (target_party <=? Z.of_nat a + Z.of_nat n)
    then Z.of_nat n - 1 else Z.of_nat n.
Proof.
  revert a; induction n as [|n IH]; intros a.
  - simpl. destruct (Z.of_nat a + 1 <=? target_party) eqn:E1;
      destruct (target_party <=? Z.of_nat a + 0) eqn:E2; simpl; try reflexivity.
    apply Z.leb_le in E1, E2. lia.
  - simpl seq. simpl filter. specialize (IH (S a)).
    destruct (Z.of_nat a + 1 =? target_party) eqn:Et; simpl negb; cbv iota;
      [apply Z.eqb_eq in Et | apply Z.eqb_neq in Et; simpl length];
      rewrite ?Nat2Z.inj_succ in *; rewrite IH;
      destruct (Z.succ (Z.of_nat a) + 1 <=? target_party) eqn:E1;
      destruct (target_party <=? Z.succ (Z.of_nat a) + Z.of_nat n) eqn:E2;
      destruct (Z.of_nat a + 1 <=? target_party) eqn:E3;
      destruct (target_party <=? Z.of_nat a + Z.succ (Z.of_nat n)) eqn:E4;
      repeat match goal with
             | H : (_ <=? _) = true |- _ => apply Z.leb_le in H
             | H : (_ <=? _) = false |- _ => apply Z.leb_gt in H
             end; simpl; lia.
Qed.

Lemma senders_length (count target_party : Z) :
  1 <= target_party <= count ->
  Z.of_nat (length (senders count target_party)) = count - 1.
Proof.
  intros H. unfold senders, indices. rewrite senders_seq_length.
  replace (Z.of_nat 0 + 1 <=? target_party) with true
    by (symmetry; apply Z.leb_le; lia).
  replace (target_party <=? Z.of_nat 0 + Z.of_nat (Z.to_nat count)) with true
    by (symmetry; apply Z.leb_le; lia).
  simpl. lia.
Qed.

(** The spans come from senders other than the target. *)
Lemma extracted_spans_senders (round1_outputs : list cstring) (count target_party : Z) :
  extracted_spans round1_outputs count target_party
  = somes (map (fun i => extract (nth i round1_outputs []) target_party)
               (senders count target_party)).
Proof.
  unfold extracted_spans, senders.
  induction (indices count) as [|i l IH]; [reflexivity|].
  simpl. unfold sender_span at 1.
  destruct (Z.of_nat i + 1 =? target_party); simpl; now rewrite IH.
Qed.

(** ** The size of the result *)

Lemma fold_left_add {A : Type} (f : A -> Z) (l : list A) (a : Z) :
  fold_left (fun acc i => acc + f i) l a = a + sumZ (map f l).
Proof.
  revert a; induction l as [|i l IH]; intros a; simpl; [lia|].
  rewrite IH. lia.
Qed.

Lemma int_of_Some (v r : Z) : int_of v = Some r -> r = v /\ INT_MIN <= v <= INT_MAX.
Proof.
  unfold int_of.
  destruct ((INT_MIN <=? v) && (v <=? INT_MAX)) eqn:E; [|discriminate].
  intros [= <-]. apply andb_true_iff in E as [H1 H2].
  apply Z.leb_le in H1, H2. auto.
Qed.

Lemma int_of_in_range (v : Z) : INT_MIN <= v <= INT_MAX -> int_of v = Some v.
Proof.
  intros [H1 H2]. unfold int_of.
  apply Z.leb_le in H1, H2. now rewrite H1, H2.
Qed.

Lemma fold_add_len_None (round1_lens : list Z) (l : list nat) :
  fold_left (add_len round1_lens) l None = None.
Proof. induction l as [|i l IH]; [reflexivity | exact IH]. Qed.

Lemma fold_add_len_Some (round1_lens : list Z) (l : list nat) (a sz : Z) :
  fold_left (add_len round1_lens) l (Some a) = Some sz ->
  sz = a + sumZ (map (fun i => nth i round1_lens 0 * 2) l).
Proof.
  revert a; induction l as [|i l IH]; intros a; cbn [fold_left].
  - intros [= <-]. simpl. lia.
  - destruct (add_len round1_lens (Some a) i) as [t|] eqn:E;
      [|now rewrite fold_add_len_None].
    unfold add_len in E.
    destruct (int_of (nth i round1_lens 0 * 2)) as [twice|] eqn:E1; [|discriminate].
    apply int_of_Some in E1 as [-> _]. apply int_of_Some in E as [-> _].
    intros H. apply IH in H. simpl. lia.
Qed.

(** When the routine computes [total_size] within the range of [int], its
    value is the one of the formula. *)
Lemma total_size_allocation (round1_lens : list Z) (count sz : Z) :
  total_size round1_lens count = Some sz -> sz = allocation round1_lens count.
Proof. apply fold_add_len_Some. Qed.

Lemma fold_add_len_in_range (round1_lens : list Z) (l : list nat) (a : Z) :
  0 <= a ->
  (forall i, In i l -> 0 <= nth i round1_lens 0) ->
  a + sumZ (map (fun i => nth i round1_lens 0 * 2) l) <= INT_MAX ->
  fold_left (add_len round1_lens) l (Some a)
  = Some (a + sumZ (map (fun i => nth i round1_lens 0 * 2) l)).
Proof.
  revert a; induction l as [|i l IH]; intros a Ha Hpos Hmax; cbn [fold_left].
  - simpl. now rewrite Z.add_0_r.
  - assert (Hi : 0 <= nth i round1_lens 0) by (apply Hpos; now left).
    assert (Hrest : 0 <= sumZ (map (fun i => nth i round1_lens 0 * 2) l)).
    { clear -Hpos. induction l as [|j l IH]; simpl; [lia|].
      assert (0 <= nth j round1_lens 0) by (apply Hpos; right; now left).
      assert (0 <= sumZ (map (fun i => nth i round1_lens 0 * 2) l))
        by (apply IH; intros k [Hk|Hk]; apply Hpos; [now left | right; now right]).
      lia. }
    simpl in Hmax. unfold INT_MAX in Hmax.
    assert (Hstep : add_len round1_lens (Some a) i
                    = Some (a + nth i round1_lens 0 * 2)).
    { unfold add_len.
      rewrite (int_of_in_range (nth i round1_lens 0 * 2))
        by (unfold INT_MIN, INT_MAX; lia).
      apply int_of_in_range. unfold INT_MIN, INT_MAX. lia. }
    rewrite Hstep.
    rewrite IH; [f_equal; simpl; lia | lia | intros j Hj; apply Hpos; now right
                | unfold INT_MAX; lia].
Qed.

(** The routine computes the formula whenever its value fits an [int]. *)
Lemma allocation_total_size (round1_lens : list Z) (count : Z) :
  (forall i, (i < Z.to_nat count)%nat -> 0 <= nth i round1_lens 0) ->
  allocation round1_lens count <= INT_MAX ->
  total_size round1_lens count = Some (allocation round1_lens count).
Proof.
  intros Hpos Hmax. unfold total_size, allocation.
  apply fold_add_len_in_range; [lia | | exact Hmax].
  intros i Hi. apply in_seq in Hi. apply Hpos. lia.
Qed.

Lemma sumZ_le {A : Type} (f g : A -> Z) (l : list A) :
  (forall i, In i l -> f i <= g i) -> sumZ (map f l) <= sumZ (map g l).
Proof.
  induction l as [|i l IH]; intros H; simpl; [lia|].
  assert (f i <= g i) by (apply H; now left).
  assert (sumZ (map f l) <= sumZ (map g l)) by (apply IH; intros; apply H; now right).
  lia.
Qed.

Lemma strlen_nonneg (s : cstring) : 0 <= strlen s.
Proof. unfold strlen. lia. Qed.

Lemma join_strlen (spans : list cstring) :
  strlen (join spans) <= sumZ (map (fun s => strlen s + 1) spans).
Proof.
  induction spans as [|s spans IH]; [unfold strlen; simpl; lia|].
  destruct spans as [|s' spans].
  - unfold strlen; simpl. lia.
  - change (join (s :: s' :: spans)) with (s ++ comma :: join (s' :: spans)).
    rewrite strlen_app.
    change (comma :: join (s' :: spans)) with ([comma] ++ join (s' :: spans)).
    rewrite strlen_app. change (strlen [comma]) with 1.
    change (map ?f (s :: ?l)) with (f s :: map f l).
    change (sumZ (?x :: ?l)) with (x + sumZ l).
    cbv beta. lia.
Qed.

Lemma extracted_cost (round1_outputs : list cstring) (target_party : Z) (l : list nat) :
  sumZ (map (fun s => strlen s + 1)
            (somes (map (sender_span round1_outputs target_party) l)))
  = sumZ (map (sender_cost round1_outputs target_party) l).
Proof.
  induction l as [|i l IH]; [reflexivity|].
  simpl. unfold sender_cost at 1.
  destruct (sender_span round1_outputs target_party i); simpl; rewrite IH; lia.
Qed.

(** A span and its comma take at most twice the length of the output the
    span is cut from. *)
Lemma sender_cost_le (round1_outputs : list cstring) (target_party : Z) (i : nat) :
  sender_cost round1_outputs target_party i
  <= strlen (nth i round1_outputs []) * 2.
Proof.
  unfold sender_cost, sender_span.
  destruct (Z.of_nat i + 1 =? target_party).
  { pose proof (strlen_nonneg (nth i round1_outputs [])). lia. }
  destruct (extract (nth i round1_outputs []) target_party) as [span|] eqn:E.
  - apply extract_Some_inv in E as [Hbal [pre [post Heq]]].
    apply brace_balanced_length in Hbal.
    rewrite Heq, !strlen_app.
    pose proof (strlen_nonneg pre). pose proof (strlen_nonneg post).
    unfold strlen in *. lia.
  - pose proof (strlen_nonneg (nth i round1_outputs [])). lia.
Qed.

Lemma convert_buffer_written (round1_outputs : list cstring) (count target_party : Z) :
  written (convert_buffer round1_outputs count target_party)
  = strlen (str (convert_buffer round1_outputs count target_party)) + 1.
Proof.
  unfold convert_buffer. apply strcat_written.
  apply (inv_written _ _ (convert_loop_invariant round1_outputs count target_party)).
Qed.

Lemma convert_strlen_le (round1_outputs : list cstring) (round1_lens : list Z)
      (count target_party : Z) :
  strlen (convert_round1_to_messages round1_outputs round1_lens count target_party)
  <= 2 + sumZ (map (fun i => strlen (nth i round1_outputs []) * 2) (indices count)).
Proof.
  rewrite convert_round1_to_messages_eq.
  change (lbracket :: ?b ++ [rbracket]) with ([lbracket] ++ b ++ [rbracket]).
  rewrite !strlen_app. change (strlen [lbracket]) with 1. change (strlen [rbracket]) with 1.
  pose proof (join_strlen (extracted_spans round1_outputs count target_party)) as Hj.
  unfold extracted_spans in Hj at 2. rewrite extracted_cost in Hj.
  pose proof (sumZ_le (sender_cost round1_outputs target_party)
                      (fun i => strlen (nth i round1_outputs []) * 2)
                      (indices count)
                      (fun i _ => sender_cost_le round1_outputs target_party i)).
  lia.
Qed.

(** ** The codec *)

Lemma join_app_cons (l1 l2 : list cstring) (x : cstring) :
  join (l1 ++ x :: l2)
  = flat_map (fun s => s ++ [comma]) l1
      ++ x ++ match l2 with [] => [] | _ :: _ => comma :: join l2 end.
Proof.
  induction l1 as [|a l1 IH].
  - simpl. destruct l2; [now rewrite app_nil_r | reflexivity].
  - change ((a :: l1) ++ x :: l2) with (a :: (l1 ++ x :: l2)).
    destruct (l1 ++ x :: l2) as [|b l] eqn:E.
    + destruct l1; discriminate E.
    + change (join (a :: b :: l)) with (a ++ comma :: join (b :: l)).
      rewrite IH. simpl flat_map. rewrite <- !app_assoc. reflexivity.
Qed.

Lemma flat_map_map {A B C : Type} (f : A -> B) (g : B -> list C) (l : list A) :
  flat_map g (map f l) = flat_map (fun a => g (f a)) l.
Proof. induction l as [|a l IH]; simpl; [reflexivity | now rewrite IH]. Qed.

(** The encoding around one entry. *)
Lemma encode_split (before after : envelope) (t : Z) (payload : cstring) :
  encode (before ++ (t, payload) :: after)
  = text_before before ++ target_key t ++ payload ++ text_after after.
Proof.
  unfold encode, text_before, text_after.
  rewrite map_app.
  change (map encode_entry ((t, payload) :: after))
    with (encode_entry (t, payload) :: map encode_entry after).
  rewrite join_app_cons, flat_map_map.
  change (encode_entry (t, payload)) with (target_key t ++ payload).
  destruct after as [|e after]; cbn [map app];
    rewrite <- ?app_assoc; reflexivity.
Qed.

Lemma extract_encode (before after : envelope) (t : Z) (payload : cstring) :
  brace_balanced payload ->
  first_occurrence (text_before before) (target_key t) ->
  extract (encode (before ++ (t, payload) :: after)) t = Some payload.
Proof.
  intros Hbal Hfirst. rewrite encode_split. now apply extract_entry.
Qed.

(** C1 (amended): for an envelope with an entry for [t] whose payload is a
    brace-balanced object, the text of the key of [t] not occurring in the
    encoding in front of that entry, extracting the entry of [t] from the
    encoded envelope returns exactly the payload stored for [t]. *)
Theorem C1_round_trip (before after : envelope) (t : Z) (payload : cstring) :
  brace_balanced payload ->
  first_occurrence (text_before before) (target_key t) ->
  In (t, payload) (before ++ (t, payload) :: after)
  /\ extract (encode (before ++ (t, payload) :: after)) t = Some payload.
Proof.
  intros Hbal Hfirst. split.
  - apply in_or_app. right. now left.
  - now apply extract_encode.
Qed.

Lemma C1_round_trip_witness :
  brace_balanced (qlit "{'k':[1,{'n':2}]}")
  /\ first_occurrence (text_before [(2, qlit "{'a':1}")]) (target_key 1)
  /\ extract (encode ([(2, qlit "{'a':1}")]
                        ++ (1, qlit "{'k':[1,{'n':2}]}") :: [(3, qlit "{'b':2}")])) 1
     = Some (qlit "{'k':[1,{'n':2}]}").
Proof.
  assert (H1 : brace_balanced (qlit "{'k':[1,{'n':2}]}"))
    by balanced_span.
  assert (H2 : first_occurrence (text_before [(2, qlit "{'a':1}")]) (target_key 1))
    by first_key.
  split; [exact H1|]. split; [exact H2|].
  exact (proj2 (C1_round_trip [(2, qlit "{'a':1}")] [(3, qlit "{'b':2}")] 1
                              (qlit "{'k':[1,{'n':2}]}") H1 H2)).
Defined.

(** C1 as stated fails, in two ways: a payload with a closing brace in a
    string comes back cut at that brace, and a payload comes back replaced by
    an object found under the same key text inside an earlier payload. *)
Lemma C1_counterexample :
  (In (1, qlit "{'a':'}'}") Sample.quoted_brace_envelope
   /\ extract (encode Sample.quoted_brace_envelope) 1 = Some (qlit "{'a':'}")
   /\ extract (encode Sample.quoted_brace_envelope) 1 <> Some (qlit "{'a':'}'}"))
  /\ (In (1, qlit "{'k':1}") Sample.shadowed_envelope
      /\ extract (encode Sample.shadowed_envelope) 1 = Some (qlit "{'x':0}")
      /\ extract (encode Sample.shadowed_envelope) 1 <> Some (qlit "{'k':1}")).
Proof.
  split; (split; [simpl; tauto|]); split; try reflexivity; discriminate.
Qed.

(** C2 (amended): the key search stops at the first occurrence of the text
    of the key.  When that text also occurs inside the payload of a sibling
    entry that comes after the entry of [t], and not in the encoding in
    front of the entry of [t], extraction for [t] returns the payload stored
    under the top-level key [t]. *)
Theorem C2_later_sibling_harmless (before between after : envelope)
        (t s : Z) (payload a b : cstring) :
  s <> t ->
  brace_balanced payload ->
  first_occurrence (text_before before) (target_key t) ->
  extract (encode (before ++ (t, payload) :: between
                     ++ (s, a ++ target_key t ++ b) :: after)) t
  = Some payload
  /\ strstr (encode (before ++ (t, payload) :: between
                       ++ (s, a ++ target_key t ++ b) :: after)) (target_key t)
     = Some (target_key t ++ payload
               ++ text_after (between ++ (s, a ++ target_key t ++ b) :: after)).
Proof.
  intros _ Hbal Hfirst. split.
  - now apply extract_encode.
  - rewrite encode_split. now apply strstr_first.
Qed.

Lemma C2_later_sibling_harmless_witness :
  3 <> 1
  /\ brace_balanced (qlit "{'k':1}")
  /\ first_occurrence (text_before []) (target_key 1)
  /\ encode ([] ++ (1, qlit "{'k':1}") :: []
                ++ (3, qlit "{" ++ target_key 1 ++ qlit "{'z':9}}") :: [])
     = encode Sample.sibling_last_envelope
  /\ extract (encode Sample.sibling_last_envelope) 1 = Some (qlit "{'k':1}").
Proof.
  assert (H0 : 3 <> 1) by lia.
  assert (H1 : brace_balanced (qlit "{'k':1}"))
    by balanced_span.
  assert (H2 : first_occurrence (text_before []) (target_key 1))
    by first_key.
  split; [exact H0|]. split; [exact H1|]. split; [exact H2|].
  split; [reflexivity|].
  exact (proj1 (C2_later_sibling_harmless [] [] [] 1 3 (qlit "{'k':1}")
                  (qlit "{") (qlit "{'z':9}}") H0 H1 H2)).
Defined.

(** C2 as stated fails: the text of the key of party 1 occurs inside the
    payload for party 3, which comes first; the search stops there and the
    object found inside that payload is returned instead of the payload
    stored under the top-level key. *)
Lemma C2_counterexample :
  (exists a b, In (3, a ++ target_key 1 ++ b) Sample.sibling_first_envelope)
  /\ In (1, qlit "{'k':1}") Sample.sibling_first_envelope
  /\ strstr (encode Sample.sibling_first_envelope) (target_key 1)
     = Some (qlit "'1':{'z':9}},'1':{'k':1}}")
  /\ extract (encode Sample.sibling_first_envelope) 1 = Some (qlit "{'z':9}")
  /\ extract (encode Sample.sibling_first_envelope) 1 <> Some (qlit "{'k':1}").
Proof.
  split.
  { exists (qlit "{"), (qlit "{'z':9}}"). now left. }
  split; [simpl; tauto|].
  repeat split. discriminate.
Qed.

(** ** Routing of a broadcast round *)

Lemma extracted_spans_entries (round1_outputs : list cstring)
      (count target_party : Z) (pre span post : nat -> cstring) :
  (forall i, (i < Z.to_nat count)%nat -> Z.of_nat i + 1 <> target_party ->
             nth i round1_outputs [] = pre i ++ target_key target_party ++ span i ++ post i
             /\ first_occurrence (pre i) (target_key target_party)
             /\ brace_balanced (span i)) ->
  extracted_spans round1_outputs count target_party
  = map span (senders count target_party).
Proof.
  intros H. rewrite extracted_spans_senders. unfold senders, indices.
  assert (Hin : forall i, In i (seq 0 (Z.to_nat count)) -> (i < Z.to_nat count)%nat)
    by (intros i Hi; apply in_seq in Hi; lia).
  induction (seq 0 (Z.to_nat count)) as [|i l IH]; [reflexivity|].
  simpl filter.
  assert (IH' := IH (fun j Hj => Hin j (or_intror Hj))).
  destruct (Z.of_nat i + 1 =? target_party) eqn:Et; simpl negb; cbv iota; [exact IH'|].
  apply Z.eqb_neq in Et.
  destruct (H i (Hin i (or_introl eq_refl)) Et) as [Heq [Hfirst Hbal]].
  simpl. rewrite Heq, (extract_entry _ _ _ _ Hfirst Hbal). now rewrite IH'.
Qed.

(** The batch of a party takes nothing from the party's own output: two
    rounds that differ in the output of the target only give the same
    batch. *)
Lemma own_output_ignored (round1_outputs round1_outputs' : list cstring)
      (round1_lens round1_lens' : list Z) (count target_party : Z) :
  (forall i, Z.of_nat i + 1 <> target_party ->
             nth i round1_outputs' [] = nth i round1_outputs []) ->
  convert_round1_to_messages round1_outputs' round1_lens' count target_party
  = convert_round1_to_messages round1_outputs round1_lens count target_party.
Proof.
  intros H. rewrite !convert_round1_to_messages_eq.
  unfold extracted_spans.
  replace (map (sender_span round1_outputs' target_party) (indices count))
    with (map (sender_span round1_outputs target_party) (indices count));
    [reflexivity|].
  apply map_ext. intros i.
  unfold sender_span.
  destruct (Z.of_nat i + 1 =? target_party) eqn:E; [reflexivity|].
  apply Z.eqb_neq in E. now rewrite (H i E).
Qed.

(** C5 (amended): in a round of [count] parties in which the output of every
    party other than [target_party] holds the entry ["<target>":{...}] with a
    balanced span, the text of the key not occurring in front of it, the
    batch computed for the target holds exactly [count - 1] payloads: the
    spans of the other parties in ascending order, and nothing of the
    target's own output. *)
Theorem C5_complete_batch (round1_outputs : list cstring) (round1_lens : list Z)
        (count target_party : Z) (pre span post : nat -> cstring) :
  1 <= target_party <= count ->
  (forall i, (i < Z.to_nat count)%nat -> Z.of_nat i + 1 <> target_party ->
             nth i round1_outputs [] = pre i ++ target_key target_party ++ span i ++ post i
             /\ first_occurrence (pre i) (target_key target_party)
             /\ brace_balanced (span i)) ->
  message_count (convert_loop round1_outputs count target_party) = count - 1
  /\ convert_round1_to_messages round1_outputs round1_lens count target_party
     = lbracket :: join (map span (senders count target_party)) ++ [rbracket]
  /\ ~ In (Z.to_nat (target_party - 1)) (senders count target_party)
  /\ forall round1_outputs' : list cstring,
      (forall i, Z.of_nat i + 1 <> target_party ->
                 nth i round1_outputs' [] = nth i round1_outputs []) ->
      convert_round1_to_messages round1_outputs' round1_lens count target_party
      = convert_round1_to_messages round1_outputs round1_lens count target_party.
Proof.
  intros Ht H.
  rewrite message_count_eq, convert_round1_to_messages_eq.
  rewrite (extracted_spans_entries _ _ _ pre span post H).
  split; [rewrite length_map; now apply senders_length|].
  split; [reflexivity|]. split.
  - unfold senders. intros Hin. apply filter_In in Hin as [_ Hne].
    apply negb_true_iff, Z.eqb_neq in Hne. lia.
  - intros round1_outputs' Hsame.
    rewrite <- (extracted_spans_entries _ _ _ pre span post H).
    rewrite <- (convert_round1_to_messages_eq _ round1_lens).
    now apply own_output_ignored.
Qed.

Lemma C5_complete_batch_witness :
  let pre i := match i with 1%nat => qlit "{" | 2%nat => qlit "{" | _ => [] end in
  let span i := match i with
                | 1%nat => qlit "{'c':3}" | 2%nat => qlit "{'e':{'f':5}}" | _ => []
                end in
  let post i := match i with
                | 1%nat => qlit ",'3':{'d':4}}" | 2%nat => qlit ",'2':{'g':6}}" | _ => []
                end in
  1 <= 1 <= 3
  /\ (forall i, (i < Z.to_nat 3)%nat -> Z.of_nat i + 1 <> 1 ->
                nth i Sample.round1_outputs [] = pre i ++ target_key 1 ++ span i ++ post i
                /\ first_occurrence (pre i) (target_key 1)
                /\ brace_balanced (span i))
  /\ message_count (convert_loop Sample.round1_outputs 3 1) = 3 - 1
  /\ convert_round1_to_messages Sample.round1_outputs Sample.round1_lens 3 1
     = lbracket :: join (map span (senders 3 1)) ++ [rbracket].
Proof.
  intros pre span post.
  assert (Ht : 1 <= 1 <= 3) by lia.
  assert (H : forall i, (i < Z.to_nat 3)%nat -> Z.of_nat i + 1 <> 1 ->
                nth i Sample.round1_outputs [] = pre i ++ target_key 1 ++ span i ++ post i
                /\ first_occurrence (pre i) (target_key 1)
                /\ brace_balanced (span i)).
  { intros i Hi Hne. destruct i as [|[|[|i]]]; [lia | | | simpl in Hi; lia].
    - repeat split; try reflexivity.
      + apply first_occurrence_strstr. reflexivity.
      + now exists (qlit "'c':3}").
      + apply (brace_scan_balanced (qlit "'c':3}")). reflexivity.
    - repeat split; try reflexivity.
      + apply first_occurrence_strstr. reflexivity.
      + now exists (qlit "'e':{'f':5}}").
      + apply (brace_scan_balanced (qlit "'e':{'f':5}}")). reflexivity. }
  split; [exact Ht|]. split; [exact H|].
  pose proof (C5_complete_batch Sample.round1_outputs Sample.round1_lens 3 1
                                pre span post Ht H) as [Hcount [Hbatch _]].
  split; [exact Hcount | exact Hbatch].
Defined.

(** C5 as stated fails: the output of party 2 holds a well-formed entry
    for party 1, yet the text of the key occurs earlier, inside the payload for
    party 3, the scan started there never balances, and the batch of party 1
    holds one payload instead of two. *)
Lemma C5_counterexample :
  (forall i, (i < 3)%nat -> Z.of_nat i + 1 <> 1 ->
             contains_entry (nth i Sample.nested_outputs []) 1)
  /\ convert_round1_to_messages Sample.nested_outputs [25; 29; 25] 3 1
     = qlit "[{'e':5}]"
  /\ message_count (convert_loop Sample.nested_outputs 3 1) = 1
  /\ message_count (convert_loop Sample.nested_outputs 3 1) <> 3 - 1.
Proof.
  split; [|repeat split; discriminate].
  intros i Hi Hne. destruct i as [|[|[|i]]]; [lia | | | lia].
  - exists (qlit "{'3':{'1':'{{{'},"), (qlit "{'k':0}"), (qlit "}").
    split; [reflexivity|].
    balanced_span.
  - exists (qlit "{"), (qlit "{'e':5}"), (qlit ",'2':{'g':6}}").
    split; [reflexivity|].
    balanced_span.
Qed.

Lemma two_nones_length {A : Type} (f : nat -> option A) (n i j : nat) :
  (i < n)%nat -> (j < n)%nat -> i <> j -> f i = None -> f j = None ->
  (length (somes (map f (seq 0 n))) + 2 <= n)%nat.
Proof.
  intros Hi Hj Hij Hfi Hfj.
  assert (Hsplit : forall l, (length (somes (map f l))
                              + length (filter (fun k => match f k with
                                                         | None => true
                                                         | Some _ => false
                                                         end) l)
                              = length l)%nat).
  { induction l as [|k l IH]; [reflexivity|]. simpl.
    destruct (f k); simpl; lia. }
  specialize (Hsplit (seq 0 n)). rewrite length_seq in Hsplit.
  assert (Hincl : incl [i; j] (filter (fun k => match f k with
                                                | None => true
                                                | Some _ => false
                                                end) (seq 0 n))).
  { intros k [<-|[<-|[]]]; apply filter_In; split;
      try (apply in_seq; lia); [now rewrite Hfi | now rewrite Hfj]. }
  assert (Hnd : NoDup [i; j]).
  { constructor; [intros [H|[]]; congruence|]. constructor; [intros []|constructor]. }
  pose proof (NoDup_incl_length Hnd Hincl) as Hlen. simpl in Hlen. lia.
Qed.

(** C3 (amended): when nothing is extracted from the output of a party [q]
    other than the target, the routine does not fail: it leaves [q] out and
    returns the batch of the spans of the remaining senders, which holds
    fewer than [count - 1] payloads. *)
Theorem C3_missing_entry_skipped (round1_outputs : list cstring)
        (round1_lens : list Z) (count target_party : Z) (q : nat) :
  1 <= target_party <= count ->
  (q < Z.to_nat count)%nat ->
  Z.of_nat q + 1 <> target_party ->
  extract (nth q round1_outputs []) target_party = None ->
  convert_round1_to_messages round1_outputs round1_lens count target_party
  = lbracket :: join (extracted_spans round1_outputs count target_party)
      ++ [rbracket]
  /\ message_count (convert_loop round1_outputs count target_party)
     = Z.of_nat (length (extracted_spans round1_outputs count target_party))
  /\ message_count (convert_loop round1_outputs count target_party) < count - 1.
Proof.
  intros Ht Hq Hne Hnone.
  split; [apply convert_round1_to_messages_eq|].
  split; [apply message_count_eq|].
  rewrite message_count_eq. unfold extracted_spans, indices.
  pose proof (two_nones_length (sender_span round1_outputs target_party)
                               (Z.to_nat count) q (Z.to_nat (target_party - 1))) as H.
  assert (Hself : sender_span round1_outputs target_party
                              (Z.to_nat (target_party - 1)) = None).
  { unfold sender_span.
    replace (Z.of_nat (Z.to_nat (target_party - 1)) + 1 =? target_party) with true
      by (symmetry; apply Z.eqb_eq; lia).
    reflexivity. }
  assert (Hother : sender_span round1_outputs target_party q = None).
  { unfold sender_span.
    replace (Z.of_nat q + 1 =? target_party) with false
      by (symmetry; apply Z.eqb_neq; lia).
    exact Hnone. }
  specialize (H Hq ltac:(lia) ltac:(lia) Hother Hself). lia.
Qed.

Lemma C3_missing_entry_skipped_witness :
  1 <= 1 <= 3
  /\ (2 < Z.to_nat 3)%nat
  /\ Z.of_nat 2 + 1 <> 1
  /\ extract (nth 2 Sample.withheld_outputs []) 1 = None
  /\ message_count (convert_loop Sample.withheld_outputs 3 1) < 3 - 1.
Proof.
  assert (H1 : 1 <= 1 <= 3) by lia.
  assert (H2 : (2 < Z.to_nat 3)%nat) by (simpl; lia).
  assert (H3 : Z.of_nat 2 + 1 <> 1) by (simpl; lia).
  assert (H4 : extract (nth 2 Sample.withheld_outputs []) 1 = None) by reflexivity.
  repeat (split; [assumption|]).
  exact (proj2 (proj2 (C3_missing_entry_skipped
                         Sample.withheld_outputs [25; 25; 13] 3 1 2 H1 H2 H3 H4))).
Defined.

(** C3 as stated fails: party 3 has no entry for party 1, and the routine
    returns a batch of one payload for party 1 in a round of three. *)
Lemma C3_counterexample :
  key_absent (nth 2 Sample.withheld_outputs []) 1
  /\ convert_round1_to_messages Sample.withheld_outputs [25; 25; 13] 3 1
     = qlit "[{'c':3}]"
  /\ message_count (convert_loop Sample.withheld_outputs 3 1) = 1
  /\ message_count (convert_loop Sample.withheld_outputs 3 1) < 3 - 1.
Proof.
  split; [apply key_absent_strstr; reflexivity|].
  repeat split.
Qed.

(** ** Unbalanced input *)

(** A scan whose depth stays positive up to the end of the string stops at
    the terminator with that depth. *)
Lemma brace_scan_unbalanced (s : cstring) (d : Z) :
  s <> [] ->
  (forall k, (0 < k <= length s)%nat -> 0 < d + depth (firstn k s)) ->
  brace_scan d s = (d + depth s, []).
Proof.
  revert d; induction s as [|c s IH]; intros d Hne H; [congruence|].
  rewrite brace_scan_cons. destruct s as [|c' s'].
  - cbn [negb]. rewrite andb_false_r. cbn [depth]. now rewrite Z.add_0_r.
  - assert (H1 : 0 < d + brace_delta c).
    { specialize (H 1%nat). simpl in H. specialize (H ltac:(lia)). lia. }
    apply Z.ltb_lt in H1. rewrite H1. cbn [andb negb].
    rewrite IH; [f_equal; simpl; lia | discriminate |].
    intros k Hk. specialize (H (S k)). simpl in H, Hk.
    specialize (H ltac:(lia)). simpl. lia.
Qed.

(** The routine contributes nothing for an entry whose braces do not close
    before the end of the output. *)
Lemma extract_unbalanced (pre rest : cstring) (target_party : Z) :
  first_occurrence pre (target_key target_party) ->
  (forall k, (0 < k <= length (lbrace :: rest))%nat ->
             0 < depth (firstn k (lbrace :: rest))) ->
  extract (pre ++ target_key target_party ++ lbrace :: rest) target_party = None.
Proof.
  intros Hfirst Hopen. unfold extract, locate.
  rewrite (strstr_first _ _ _ Hfirst).
  rewrite (strchr_skip _ _ _ (target_key_no_brace target_party)).
  rewrite (brace_scan_unbalanced (lbrace :: rest) 0); [|discriminate|exact Hopen].
  specialize (Hopen (length (lbrace :: rest)) ltac:(simpl; lia)).
  rewrite firstn_all in Hopen.
  replace (0 + depth (lbrace :: rest) =? 0) with false
    by (symmetry; apply Z.eqb_neq; lia).
  reflexivity.
Qed.

(** The inline copy of [main] in test_complete_ed25519.c has no test of
    [brace_count] after the scan: on the same input it wraps everything from
    the opening brace to the end of the output. *)
Lemma formatted_input_unbalanced (pre rest key : cstring) :
  ~ In lbrace key ->
  first_occurrence pre key ->
  (forall k, (0 < k <= length (lbrace :: rest))%nat ->
             0 < depth (firstn k (lbrace :: rest))) ->
  Ed25519Main.formatted_input (pre ++ key ++ lbrace :: rest) key
  = Some (lbracket :: (lbrace :: rest) ++ [rbracket]).
Proof.
  intros Hkey Hfirst Hopen. unfold Ed25519Main.formatted_input.
  rewrite (strstr_first _ _ _ Hfirst), (strchr_skip _ _ _ Hkey).
  rewrite (brace_scan_unbalanced (lbrace :: rest) 0); [|discriminate|exact Hopen].
  unfold Ed25519Main.sprintf_bracketed, ptrdiff.
  change (length (@nil ascii)) with 0%nat.
  now rewrite Nat.sub_0_r, firstn_all.
Qed.

(** C4, in the inline copy of the scan in [main] of test_complete_ed25519.c:
    the braces of the entry for P1 do not close before the end of P2's
    output, and the unbalanced span is wrapped and handed to the engine; the
    routine [convert_round1_to_messages] contributes nothing on the same
    output. *)
Theorem C4_inline_scan_keeps_partial_span :
  Ed25519Main.formatted_input_p1 Sample.truncated_output
  = Some (qlit "[{'a':{'b':1}]")
  /\ depth (qlit "{'a':{'b':1}") = 1
  /\ extract Sample.truncated_output 1 = None
  /\ convert_round1_to_messages [[]; Sample.truncated_output] [0; 17] 2 1
     = qlit "[]".
Proof. repeat split. Qed.

(** ** Shape, order and size of the aggregated batch *)

(** C6: the aggregated inbound batch is ["["], the extracted spans joined by
    [","], and ["]"]; the spans are those of the senders [1, 2, ..., count]
    in this order, the target and the senders nothing is extracted from being
    left out; the string is determined by the outputs, the count and the
    target alone (the reported lengths play no part). *)
Theorem C6_aggregate_shape_and_order (round1_outputs : list cstring)
        (round1_lens : list Z) (count target_party : Z) :
  convert_round1_to_messages round1_outputs round1_lens count target_party
  = lbracket ::
      join (somes (map (sender_span round1_outputs target_party)
                       (seq 0 (Z.to_nat count))))
      ++ [rbracket]
  /\ forall round1_lens' : list Z,
      convert_round1_to_messages round1_outputs round1_lens' count target_party
      = convert_round1_to_messages round1_outputs round1_lens count target_party.
Proof.
  split.
  - apply convert_round1_to_messages_eq.
  - reflexivity.
Qed.

(** C9: the string returned by the aggregation routine begins with ['['] and
    ends with [']']; it is ["[]"] when nothing can be extracted from any
    peer's output; and every element between the brackets is a brace-balanced
    span that begins with ['{'] and ends with ['}'].  The routine
    [convert_round_to_messages] of test_refresh.c has the same text. *)
Theorem C9_aggregate_well_formed (round1_outputs : list cstring)
        (round1_lens : list Z) (count target_party : Z) :
  let r := convert_round1_to_messages round1_outputs round1_lens count target_party in
  let spans := extracted_spans round1_outputs count target_party in
  (exists body, r = lbracket :: body ++ [rbracket])
  /\ r = lbracket :: join spans ++ [rbracket]
  /\ Forall (fun span => brace_balanced span
                         /\ exists inner, span = lbrace :: inner ++ [rbrace]) spans
  /\ ((forall i, (i < Z.to_nat count)%nat -> Z.of_nat i + 1 <> target_party ->
                 extract (nth i round1_outputs []) target_party = None)
      -> r = [lbracket; rbracket]).
Proof.
  intros r spans. subst r spans.
  rewrite convert_round1_to_messages_eq. repeat split.
  - now eexists.
  - pose proof (extracted_spans_balanced round1_outputs count target_party) as H.
    induction H as [|span l Hb _ IH]; constructor; [|exact IH].
    split; [exact Hb | now apply brace_balanced_ends].
  - intros Hnone.
    assert (E : extracted_spans round1_outputs count target_party = []).
    { unfold extracted_spans, indices.
      assert (Hall : forall i, In i (seq 0 (Z.to_nat count)) ->
                               sender_span round1_outputs target_party i = None).
      { intros i Hi. apply in_seq in Hi. unfold sender_span.
        destruct (Z.of_nat i + 1 =? target_party) eqn:Et; [reflexivity|].
        apply Hnone; [lia | now apply Z.eqb_neq]. }
      induction (seq 0 (Z.to_nat count)) as [|i l IH]; [reflexivity|].
      simpl. rewrite (Hall i (or_introl eq_refl)).
      apply IH. intros j Hj. apply Hall. now right. }
    now rewrite E.
Qed.

Lemma C9_aggregate_well_formed_witness :
  (forall i, (i < Z.to_nat 3)%nat -> Z.of_nat i + 1 <> 1 ->
             extract (nth i Sample.silent_outputs []) 1 = None)
  /\ convert_round1_to_messages Sample.silent_outputs [25; 13; 13] 3 1
     = [lbracket; rbracket].
Proof.
  assert (H : forall i, (i < Z.to_nat 3)%nat -> Z.of_nat i + 1 <> 1 ->
                        extract (nth i Sample.silent_outputs []) 1 = None).
  { intros i Hi Hne.
    destruct i as [|[|[|i]]]; [lia | reflexivity | reflexivity | simpl in Hi; lia]. }
  split; [exact H|].
  exact (proj2 (proj2 (proj2
           (C9_aggregate_well_formed Sample.silent_outputs [25; 13; 13] 3 1))) H).
Defined.

(** C10: when the reported length of each round output is the length of its
    string, the bytes written into the result buffer (the opening bracket,
    the separators, the spans, the closing bracket and the terminator) are
    at most [1000 + sum of 2 * round1_lens[i]], the bytes the routine
    allocates: every write stays within the allocation. *)
Theorem C10_result_within_allocation (round1_outputs : list cstring)
        (round1_lens : list Z) (count target_party : Z) :
  (forall i, (i < Z.to_nat count)%nat ->
             nth i round1_lens 0 = strlen (nth i round1_outputs [])) ->
  written (convert_buffer round1_outputs count target_party)
  = strlen (convert_round1_to_messages round1_outputs round1_lens count target_party) + 1
  /\ written (convert_buffer round1_outputs count target_party)
     <= allocation round1_lens count
  /\ forall sz, total_size round1_lens count = Some sz ->
                written (convert_buffer round1_outputs count target_party) <= sz.
Proof.
  intros Hlens. rewrite convert_buffer_written.
  pose proof (convert_strlen_le round1_outputs round1_lens count target_party) as Hle.
  unfold convert_round1_to_messages in Hle.
  assert (Hsum : sumZ (map (fun i => strlen (nth i round1_outputs []) * 2) (indices count))
                 <= sumZ (map (fun i => nth i round1_lens 0 * 2) (indices count))).
  { apply sumZ_le. intros i Hi. apply in_seq in Hi. rewrite Hlens; lia. }
  assert (Hbound : strlen (str (convert_buffer round1_outputs count target_party)) + 1
                   <= allocation round1_lens count)
    by (unfold allocation; lia).
  split; [reflexivity|]. split; [exact Hbound|].
  intros sz Hsz. apply total_size_allocation in Hsz. now subst sz.
Qed.

Lemma C10_result_within_allocation_witness :
  (forall i, (i < Z.to_nat 3)%nat ->
             nth i Sample.round1_lens 0 = strlen (nth i Sample.round1_outputs []))
  /\ total_size Sample.round1_lens 3 = Some 1162
  /\ written (convert_buffer Sample.round1_outputs 3 1) <= 1162.
Proof.
  assert (H : forall i, (i < Z.to_nat 3)%nat ->
                        nth i Sample.round1_lens 0
                        = strlen (nth i Sample.round1_outputs [])).
  { intros i Hi.
    destruct i as [|[|[|i]]]; [reflexivity | reflexivity | reflexivity | simpl in Hi; lia]. }
  split; [exact H|]. split; [reflexivity|].
  exact (proj2 (proj2 (C10_result_within_allocation
                         Sample.round1_outputs Sample.round1_lens 3 1 H))
               1162 eq_refl).
Defined.

(** ** The error paths of the JNI bindings *)

Import Jni.




(** The message of a binding that throws is not cut by the 256 bytes of
    [error_msg] as long as the result code prints in at most 200
    characters, as every [int] does. *)
Lemma detail_message_whole (b : binding) (text : string) (result : Z) :
  error_text b = Some text ->
  (length (sprintf_d result) <= 200)%nat ->
  snprintf_d 256 text result = lit text ++ sprintf_d result.
Proof.
  intros Htext Hlen. unfold snprintf_d. apply firstn_all2.
  rewrite length_app.
  destruct b; try discriminate Htext; injection Htext as <-;
    vm_compute (length (lit _)); simpl; lia.
Qed.

Example detail_message_int_min :
  snprintf_d 256 "ECDSA签名P1Step3失败: " INT_MIN
  = lit "ECDSA签名P1Step3失败: -2147483648".
Proof. reflexivity. Qed.

(** ** The two-party signing run *)

Import EcdsaSign.

(** C8: a two-party ECDSA signing run that reaches the signature is made of
    exactly five engine calls, on the handles of P1, P2, P1, P2, P1 in this
    order; the first takes no buffer, and each of the others takes exactly
    the buffers the call before it, made on the peer's handle, has produced,
    as they are.  The calls are those of the engine: [go_ecdsa_sign_step1]
    on the handle of P1 as [main] got it, [go_ecdsa_sign_p2_step1] on the
    handle of P2 with the commitment the first call stored, and so on, each
    on the state the call before on the same handle has left, each with
    result 0, and the outputs recorded are the buffers these calls stored. *)
Theorem C8_sign_run_steps (session : Type)
        (go_ecdsa_sign_step1 : session -> Z * session * blob)
        (go_ecdsa_sign_p2_step1 : session -> blob -> Z * session * (blob * blob))
        (go_ecdsa_sign_p1_step2 : session -> blob -> blob -> Z * session * (blob * blob))
        (go_ecdsa_sign_p2_step2 : session -> blob -> blob -> Z * session * (blob * blob))
        (go_ecdsa_sign_p1_step3 : session -> blob -> blob -> Z * session * (blob * blob))
        (p1_sign_handle p2_sign_handle : session) (calls : list call) :
  sign_run go_ecdsa_sign_step1 go_ecdsa_sign_p2_step1 go_ecdsa_sign_p1_step2
           go_ecdsa_sign_p2_step2 go_ecdsa_sign_p1_step3
           p1_sign_handle p2_sign_handle = (0, calls) ->
  length calls = 5%nat
  /\ map on calls = [P1; P2; P1; P2; P1]
  /\ map fn calls
     = [sign_step1; sign_p2_step1; sign_p1_step2; sign_p2_step2; sign_p1_step3]
  /\ (exists c, nth_error calls 0 = Some c /\ inputs c = [])
  /\ (forall k prev next,
         nth_error calls k = Some prev -> nth_error calls (S k) = Some next ->
         follows prev next)
  /\ exists p1_after_step1 p2_after_step1 p1_after_step2 p2_after_step2
            p1_after_step3
            p1_commit p2_proof p2_r2 p1_proof p1_cmtd p2_ek p2_affine_proof
            signature_r signature_s,
      go_ecdsa_sign_step1 p1_sign_handle = (0, p1_after_step1, p1_commit)
      /\ go_ecdsa_sign_p2_step1 p2_sign_handle p1_commit
         = (0, p2_after_step1, (p2_proof, p2_r2))
      /\ go_ecdsa_sign_p1_step2 p1_after_step1 p2_proof p2_r2
         = (0, p1_after_step2, (p1_proof, p1_cmtd))
      /\ go_ecdsa_sign_p2_step2 p2_after_step1 p1_cmtd p1_proof
         = (0, p2_after_step2, (p2_ek, p2_affine_proof))
      /\ go_ecdsa_sign_p1_step3 p1_after_step2 p2_ek p2_affine_proof
         = (0, p1_after_step3, (signature_r, signature_s))
      /\ calls =
         [ {| on := P1; fn := sign_step1; inputs := []; outputs := [p1_commit] |};
           {| on := P2; fn := sign_p2_step1;
              inputs := [p1_commit]; outputs := [p2_proof; p2_r2] |};
           {| on := P1; fn := sign_p1_step2;
              inputs := [p2_proof; p2_r2]; outputs := [p1_proof; p1_cmtd] |};
           {| on := P2; fn := sign_p2_step2;
              inputs := [p1_cmtd; p1_proof]; outputs := [p2_ek; p2_affine_proof] |};
           {| on := P1; fn := sign_p1_step3;
              inputs := [p2_ek; p2_affine_proof];
              outputs := [signature_r; signature_s] |} ].
Proof.
  unfold sign_run.
  destruct (go_ecdsa_sign_step1 p1_sign_handle) as [[r1 h1] commit] eqn:G1.
  destruct (r1 =? 0) eqn:E1; cbn [negb]; [|discriminate].
  destruct (go_ecdsa_sign_p2_step1 p2_sign_handle commit) as [[r2 h2] [pf2 rr]] eqn:G2.
  destruct (r2 =? 0) eqn:E2; cbn [negb]; [|discriminate].
  destruct (go_ecdsa_sign_p1_step2 h1 pf2 rr) as [[r3 h3] [pf1 cd]] eqn:G3.
  destruct (r3 =? 0) eqn:E3; cbn [negb]; [|discriminate].
  destruct (go_ecdsa_sign_p2_step2 h2 cd pf1) as [[r4 h4] [ek af]] eqn:G4.
  destruct (r4 =? 0) eqn:E4; cbn [negb]; [|discriminate].
  destruct (go_ecdsa_sign_p1_step3 h3 ek af) as [[r5 h5] [sr ss]] eqn:G5.
  destruct (r5 =? 0) eqn:E5; cbn [negb]; [|discriminate].
  apply Z.eqb_eq in E1, E2, E3, E4, E5. subst r1 r2 r3 r4 r5.
  intros [= <-].
  split; [reflexivity|]. split; [reflexivity|]. split; [reflexivity|].
  split; [eexists; split; reflexivity|].
  split;
    [|exists h1, h2, h3, h4, h5, commit, pf2, rr, pf1, cd, ek, af, sr, ss;
      repeat split; assumption].
  intros k prev next Hprev Hnext.
  destruct k as [|[|[|[|k]]]]; simpl in Hprev, Hnext;
    try (destruct k; discriminate Hnext);
    injection Hprev as <-; injection Hnext as <-;
    (split; [discriminate | simpl; tauto]).
Qed.

Lemma C8_sign_run_steps_witness :
  sign_run Sample.strict_step1 Sample.strict_p2_step1 Sample.strict_p1_step2
           Sample.strict_p2_step2 Sample.strict_p1_step3 0%nat 10%nat
  = (0, snd (sign_run Sample.strict_step1 Sample.strict_p2_step1
                      Sample.strict_p1_step2 Sample.strict_p2_step2
                      Sample.strict_p1_step3 0%nat 10%nat))
  /\ map on (snd (sign_run Sample.strict_step1 Sample.strict_p2_step1
                           Sample.strict_p1_step2 Sample.strict_p2_step2
                           Sample.strict_p1_step3 0%nat 10%nat))
     = [P1; P2; P1; P2; P1].
Proof.
  split; [reflexivity|].
  exact (proj1 (proj2 (C8_sign_run_steps
                         nat Sample.strict_step1 Sample.strict_p2_step1
                         Sample.strict_p1_step2 Sample.strict_p2_step2
                         Sample.strict_p1_step3 0%nat 10%nat _ eq_refl))).
Defined.

(** Conversely, when the five calls of the engine, chained in this way,
    all return 0, the run returns 0. *)
Lemma sign_run_reaches_signature (session : Type)
      (go_ecdsa_sign_step1 : session -> Z * session * blob)
      (go_ecdsa_sign_p2_step1 : session -> blob -> Z * session * (blob * blob))
      (go_ecdsa_sign_p1_step2 : session -> blob -> blob -> Z * session * (blob * blob))
      (go_ecdsa_sign_p2_step2 : session -> blob -> blob -> Z * session * (blob * blob))
      (go_ecdsa_sign_p1_step3 : session -> blob -> blob -> Z * session * (blob * blob))
      (p1_sign_handle p2_sign_handle : session)
      (p1_after_step1 p2_after_step1 p1_after_step2 p2_after_step2
       p1_after_step3 : session)
      (p1_commit p2_proof p2_r2 p1_proof p1_cmtd p2_ek p2_affine_proof
       signature_r signature_s : blob) :
  go_ecdsa_sign_step1 p1_sign_handle = (0, p1_after_step1, p1_commit) ->
  go_ecdsa_sign_p2_step1 p2_sign_handle p1_commit
  = (0, p2_after_step1, (p2_proof, p2_r2)) ->
  go_ecdsa_sign_p1_step2 p1_after_step1 p2_proof p2_r2
  = (0, p1_after_step2, (p1_proof, p1_cmtd)) ->
  go_ecdsa_sign_p2_step2 p2_after_step1 p1_cmtd p1_proof
  = (0, p2_after_step2, (p2_ek, p2_affine_proof)) ->
  go_ecdsa_sign_p1_step3 p1_after_step2 p2_ek p2_affine_proof
  = (0, p1_after_step3, (signature_r, signature_s)) ->
  fst (sign_run go_ecdsa_sign_step1 go_ecdsa_sign_p2_step1 go_ecdsa_sign_p1_step2
                go_ecdsa_sign_p2_step2 go_ecdsa_sign_p1_step3
                p1_sign_handle p2_sign_handle) = 0.
Proof.
  intros G1 G2 G3 G4 G5. unfold sign_run.
  rewrite G1. cbn [Z.eqb negb]. rewrite G2. cbn [Z.eqb negb].
  rewrite G3. cbn [Z.eqb negb]. rewrite G4. cbn [Z.eqb negb].
  rewrite G5. reflexivity.
Qed.

(** The engine of the witness refuses a call on the peer's handle, and a
    buffer other than those of the step before: started with the handles
    exchanged, the run ends at its first call. *)
Example strict_engine_refuses :
  sign_run Sample.strict_step1 Sample.strict_p2_step1 Sample.strict_p1_step2
           Sample.strict_p2_step2 Sample.strict_p1_step3 10%nat 0%nat
  = (1, [ {| on := P1; fn := sign_step1; inputs := [];
             outputs := [Sample.blob_of "commit"] |} ]).
Proof. reflexivity. Qed.

(** A run stops at the first call that fails: here at the second. *)
Example sign_run_stops_at_failure :
  sign_run Sample.toy_step1
           (fun h commit => (-3, h, (Sample.blob_of "", Sample.blob_of "")))
           Sample.toy_p1_step2 Sample.toy_p2_step2 Sample.toy_p1_step3 0%nat 0%nat
  = (1, [ {| on := P1; fn := sign_step1; inputs := [];
             outputs := [Sample.blob_of "commit"] |};
          {| on := P2; fn := sign_p2_step1; inputs := [Sample.blob_of "commit"];
             outputs := [Sample.blob_of ""; Sample.blob_of ""] |} ]).
Proof. reflexivity. Qed.

(** ** The copies in test_refresh.c *)

(** [test_refresh] leaves a sender out in the same way: when the text of
    the key is absent from the message of party [j], the loop body changes
    nothing. *)
Lemma refresh_inner_body_skips (round_messages : list Refresh.MessageData)
      (i : Z) (st : cstring * bool) (j : nat) (msg_data : cstring) :
  Refresh.data (nth j round_messages {| Refresh.data := None; Refresh.len := 0 |})
  = Some msg_data ->
  key_absent msg_data (i + 1) ->
  Refresh.inner_body round_messages i st j = st.
Proof.
  intros Hdata Habs. unfold Refresh.inner_body. destruct st as [agg first].
  destruct (Z.of_nat j =? i); [reflexivity|]. rewrite Hdata.
  destruct (negb (2 <? strlen msg_data)); [reflexivity|].
  destruct (strstr msg_data (target_key (i + 1))) as [suf|] eqn:E; [|reflexivity].
  exfalso. apply strstr_Some_inv in E as [pre [-> Hs]].
  apply starts_with_inv in Hs as [r ->]. exact (Habs pre r eq_refl).
Qed.

Example refresh_withheld :
  Refresh.aggregated_messages Sample.withheld_messages 0 = qlit "[{'c':3}]".
Proof. reflexivity. Qed.

Example refresh_complete :
  Refresh.aggregated_messages
    (map (fun s => {| Refresh.data := Some s; Refresh.len := strlen s |})
         Sample.round1_outputs) 0
  = qlit "[{'c':3},{'e':{'f':5}}]".
Proof. reflexivity. Qed.

(** * Further properties *)

(** ** Hexadecimal text *)

Lemma sprintf_02x_decode (c : ascii) :
  Hex.hex_value (hd "000"%char (Hex.sprintf_02x c)) <> None
  /\ Hex.hex_decode (Hex.sprintf_02x c) = Some [c].
Proof.
  destruct c as [[|] [|] [|] [|] [|] [|] [|] [|]];
    (split; [discriminate | reflexivity]).
Qed.

Lemma flat_map_02x_length (l : list ascii) :
  length (flat_map Hex.sprintf_02x l) = (length l * 2)%nat.
Proof. induction l as [|c l IH]; simpl; [reflexivity | now rewrite IH]. Qed.

Lemma firstn_succ_nth {A : Type} (l : list A) (d : A) (n : nat) :
  (n < length l)%nat -> firstn (S n) l = firstn n l ++ [nth n l d].
Proof.
  revert n; induction l as [|a l IH]; intros n Hn; simpl in Hn; [lia|].
  destruct n as [|n]; [reflexivity|].
  simpl. f_equal. apply IH. lia.
Qed.

(** The loop of [string_to_hex] after [n] rounds: two digits for each of the
    first [n] bytes, and the bytes written are those and the terminator. *)
Lemma hex_loop (input : cstring) (n : nat) :
  (n <= length input)%nat ->
  str (fold_left (Hex.hex_body input) (seq 0 n) Hex.fresh)
  = flat_map Hex.sprintf_02x (firstn n input)
  /\ written (fold_left (Hex.hex_body input) (seq 0 n) Hex.fresh)
     = match n with O => 0 | S _ => Z.of_nat n * 2 + 1 end.
Proof.
  induction n as [|n IH]; intros Hn; [split; reflexivity|].
  destruct (IH ltac:(lia)) as [Hstr Hw].
  rewrite seq_S, fold_left_app. simpl fold_left. unfold Hex.hex_body at 1 3.
  unfold Hex.sprintf_at. cbn [str written]. rewrite Hstr, Hw. split.
  - rewrite firstn_all2 by (rewrite flat_map_02x_length, length_firstn; lia).
    rewrite (firstn_succ_nth input "000"%char n) by lia.
    rewrite flat_map_app. cbn [flat_map]. now rewrite app_nil_r.
  - unfold strlen. simpl length. destruct n; lia.
Qed.

Lemma string_to_hex_buffer_str (input : cstring) :
  str (Hex.string_to_hex_buffer input) = flat_map Hex.sprintf_02x input.
Proof.
  unfold Hex.string_to_hex_buffer, Hex.sprintf_at. cbn [str].
  rewrite (proj1 (hex_loop input (length input) (le_n _))).
  rewrite firstn_all, app_nil_r.
  apply firstn_all2. rewrite flat_map_02x_length. lia.
Qed.

Lemma flat_map_02x_digits (l : list ascii) :
  Forall (fun c => Hex.is_hex_digit c = true) (flat_map Hex.sprintf_02x l).
Proof.
  induction l as [|c l IH]; simpl; [constructor|].
  assert (H : Hex.is_hex_digit (Hex.hex_digit (nat_of_ascii c / 16)) = true
              /\ Hex.is_hex_digit (Hex.hex_digit (nat_of_ascii c mod 16)) = true)
    by (destruct c as [[|] [|] [|] [|] [|] [|] [|] [|]]; split; reflexivity).
  destruct H as [H1 H2]. now repeat constructor.
Qed.

Lemma flat_map_02x_decode (l : list ascii) :
  Hex.hex_decode (flat_map Hex.sprintf_02x l) = Some l.
Proof.
  induction l as [|c l IH]; [reflexivity|].
  change (flat_map Hex.sprintf_02x (c :: l))
    with (Hex.hex_digit (nat_of_ascii c / 16)
            :: Hex.hex_digit (nat_of_ascii c mod 16)
            :: flat_map Hex.sprintf_02x l).
  cbn [Hex.hex_decode]. rewrite IH.
  destruct c as [[|] [|] [|] [|] [|] [|] [|] [|]]; reflexivity.
Qed.

(** X1: [string_to_hex] returns NULL exactly when [malloc] fails; otherwise
    it returns two lowercase hexadecimal digits for each byte of the input,
    in order: a string of twice the length of the input. *)
Theorem X1_string_to_hex_digits (allocated : bool) (input : cstring) :
  (Hex.string_to_hex allocated input = None <-> allocated = false)
  /\ exists hex, Hex.string_to_hex true input = Some hex
                 /\ hex = flat_map Hex.sprintf_02x input
                 /\ strlen hex = 2 * strlen input
                 /\ Forall (fun c => Hex.is_hex_digit c = true) hex.
Proof.
  split.
  - unfold Hex.string_to_hex. destruct allocated; simpl; split; congruence.
  - exists (flat_map Hex.sprintf_02x input). unfold Hex.string_to_hex.
    cbn [negb]. rewrite string_to_hex_buffer_str. repeat split.
    + unfold strlen. rewrite flat_map_02x_length. lia.
    + apply flat_map_02x_digits.
Qed.

(** X2: the text [string_to_hex] returns reads back to the input: no two
    inputs have the same hexadecimal text. *)
Theorem X2_string_to_hex_round_trip (input input' : cstring) :
  (exists hex, Hex.string_to_hex true input = Some hex
               /\ Hex.hex_decode hex = Some input)
  /\ (Hex.string_to_hex true input = Hex.string_to_hex true input' ->
      input = input').
Proof.
  unfold Hex.string_to_hex. cbn [negb]. rewrite !string_to_hex_buffer_str. split.
  - eexists. split; [reflexivity | apply flat_map_02x_decode].
  - intros [= H]. apply (f_equal Hex.hex_decode) in H.
    rewrite !flat_map_02x_decode in H. congruence.
Qed.

(** X3: the writes of [string_to_hex] (three bytes at [hex_output + 2 * i]
    in each round, then the terminator at [input_len * 2]) take exactly the
    [input_len * 2 + 1] bytes allocated. *)
Theorem X3_string_to_hex_fits (input : cstring) :
  written (Hex.string_to_hex_buffer input) = Hex.hex_size input
  /\ forall n, (n <= length input)%nat ->
               written (fold_left (Hex.hex_body input) (seq 0 n) Hex.fresh)
               <= Hex.hex_size input.
Proof.
  unfold Hex.hex_size, strlen. split.
  - unfold Hex.string_to_hex_buffer, Hex.sprintf_at. cbn [written].
    rewrite (proj2 (hex_loop input (length input) (le_n _))).
    unfold strlen. simpl length. destruct (length input); lia.
  - intros n Hn. rewrite (proj2 (hex_loop input n Hn)). destruct n; lia.
Qed.

Lemma flat_map_seq_nth (data : list ascii) (n : nat) :
  (n <= length data)%nat ->
  flat_map (fun i => Hex.sprintf_02x (nth i data "000"%char)) (seq 0 n)
  = flat_map Hex.sprintf_02x (firstn n data).
Proof.
  induction n as [|n IH]; intros Hn; [reflexivity|].
  rewrite seq_S, flat_map_app, IH by lia.
  rewrite (firstn_succ_nth data "000"%char n) by lia.
  rewrite flat_map_app. cbn [flat_map]. now rewrite !app_nil_r.
Qed.

(** X4: [print_hex] prints the hexadecimal text of the first
    [min(len, max_bytes)] bytes, followed by ["..."] exactly when [len]
    exceeds [max_bytes]; it prints at most [2 * max_bytes + 3]
    characters. *)
Theorem X4_print_hex_text (data : list ascii) (len max_bytes : Z) :
  (Z.to_nat (Z.min len max_bytes) <= length data)%nat ->
  Hex.print_hex data len max_bytes
  = flat_map Hex.sprintf_02x (firstn (Z.to_nat (Z.min len max_bytes)) data)
      ++ (if max_bytes <? len then lit "..." else [])
  /\ strlen (Hex.print_hex data len max_bytes) <= 2 * Z.max 0 max_bytes + 3.
Proof.
  intros Hlen. unfold Hex.print_hex.
  replace (if len <? max_bytes then len else max_bytes) with (Z.min len max_bytes)
    by (destruct (len <? max_bytes) eqn:E;
        [apply Z.ltb_lt in E | apply Z.ltb_ge in E]; lia).
  rewrite flat_map_seq_nth by exact Hlen. split; [reflexivity|].
  rewrite strlen_app. unfold strlen at 1.
  rewrite flat_map_02x_length, length_firstn.
  destruct (max_bytes <? len); unfold strlen; simpl length; lia.
Qed.

Lemma X4_print_hex_text_witness :
  (Z.to_nat (Z.min 5 2) <= length (lit "Hello"))%nat
  /\ Hex.print_hex (lit "Hello") 5 2 = lit "4865...".
Proof.
  assert (H : (Z.to_nat (Z.min 5 2) <= length (lit "Hello"))%nat)
    by (simpl; lia).
  split; [exact H|].
  exact (proj1 (X4_print_hex_text (lit "Hello") 5 2 H)).
Defined.

(** ** What the routine extracts *)

Lemma strstr_Some_first (haystack needle suf : cstring) :
  strstr haystack needle = Some suf ->
  exists pre rest, haystack = pre ++ needle ++ rest
                   /\ suf = needle ++ rest
                   /\ first_occurrence pre needle.
Proof.
  intros H. destruct (strstr_Some_inv _ _ _ H) as [pre [Heq Hs]].
  apply starts_with_inv in Hs as [rest ->].
  exists pre, rest. repeat split; [exact Heq|].
  intros pre' suf' Hocc.
  assert (Hh : haystack = pre' ++ needle ++ (suf' ++ rest)).
  { rewrite Heq, app_assoc, Hocc. now rewrite <- !app_assoc. }
  pose proof (strstr_longest _ _ _ H pre' (suf' ++ rest) Hh) as Hlen.
  rewrite !length_app in Hlen. destruct suf'; [reflexivity | simpl in Hlen; lia].
Qed.

Lemma strchr_Some_first (s suf : cstring) (c : ascii) :
  strchr s c = Some suf ->
  exists pre rest, s = pre ++ suf /\ suf = c :: rest /\ ~ In c pre.
Proof.
  induction s as [|a s IH]; simpl; [discriminate|].
  destruct (Ascii.eqb a c) eqn:E.
  - intros [= <-]. apply Ascii.eqb_eq in E; subst a.
    exists [], s. repeat split. intros [].
  - intros H. destruct (IH H) as [pre [rest [-> [-> Hnot]]]].
    exists (a :: pre), rest. repeat split.
    intros [Hac|Hin]; [|tauto].
    subst a. now rewrite Ascii.eqb_refl in E.
Qed.

Lemma strchr_None_absent (s : cstring) (c : ascii) :
  strchr s c = None <-> ~ In c s.
Proof.
  induction s as [|a s IH]; simpl; [tauto|].
  destruct (Ascii.eqb a c) eqn:E.
  - apply Ascii.eqb_eq in E. split; [discriminate | tauto].
  - assert (a <> c) by (intros ->; now rewrite Ascii.eqb_refl in E). tauto.
Qed.

(** A text without [c] in front of the first [c] of a string is a prefix of
    what precedes that [c]. *)
Lemma prefix_before_char {A : Type} (x r p rest : list A) (c : A) :
  x ++ r = p ++ c :: rest -> ~ In c x -> ~ In c p ->
  exists mid, p = x ++ mid.
Proof.
  revert p; induction x as [|a x IH]; intros p Heq Hx Hp; [now exists p|].
  destruct p as [|b p]; simpl in Heq.
  - injection Heq as -> _. simpl in Hx. tauto.
  - injection Heq as -> Heq.
    destruct (IH p Heq) as [mid ->]; simpl in *; try tauto.
    now exists mid.
Qed.

(** X5: the routine extracts [span] from an output for a target exactly when
    the output reads: anything, then the first occurrence of the text of the
    key, then characters other than ['{'], then [span], a brace-balanced
    span, then anything.  What follows the key up to the first ['{'] is
    passed over, whatever it is. *)
Theorem X5_extract_exactly (output : cstring) (target_party : Z) (span : cstring) :
  extract output target_party = Some span
  <-> exists pre mid post,
      output = pre ++ target_key target_party ++ mid ++ span ++ post
      /\ first_occurrence pre (target_key target_party)
      /\ ~ In lbrace mid
      /\ brace_balanced span.
Proof.
  split.
  - unfold extract, locate.
    destruct (strstr output (target_key target_party)) as [target_pos|] eqn:Hstr;
      [|discriminate].
    destruct (strchr target_pos lbrace) as [start|] eqn:Hchr; [|discriminate].
    destruct (brace_scan 0 start) as [brace_count e] eqn:Hscan.
    destruct (brace_count =? 0) eqn:Hzero; cbn [negb option_map]; [|discriminate].
    intros [= <-]. apply Z.eqb_eq in Hzero. subst brace_count.
    apply strstr_Some_first in Hstr as [pre [rest [-> [-> Hfirst]]]].
    apply strchr_Some_first in Hchr as [pre2 [rest2 [Heq [-> Hnot]]]].
    destruct (prefix_before_char _ _ _ _ _ Heq
                (target_key_no_brace target_party) Hnot) as [mid ->].
    apply brace_scan_inv in Hscan as [sp [Hsp [Hne [Hd Hin]]]]; [|discriminate].
    exists pre, mid, e. unfold span_of, fst, snd. rewrite Hsp.
    change (firstn (ptrdiff e (sp ++ e)) (sp ++ e)) with (span_of (sp ++ e, e)).
    rewrite span_of_app. repeat split.
    + rewrite Heq, Hsp. now rewrite <- !app_assoc.
    + exact Hfirst.
    + intros Hin'. apply Hnot. apply in_or_app. now right.
    + destruct sp as [|c sp]; [congruence|].
      injection Hsp as <- _. now exists sp.
    + lia.
    + exact Hin.
  - intros [pre [mid [post [-> [Hfirst [Hmid [[rest ->] [Hd Hin]]]]]]]].
    unfold extract, locate. rewrite (strstr_first _ _ _ Hfirst).
    change ((lbrace :: rest) ++ post) with (lbrace :: (rest ++ post)).
    rewrite app_assoc.
    rewrite (strchr_skip (target_key target_party ++ mid) (rest ++ post) lbrace).
    + change (lbrace :: (rest ++ post)) with ((lbrace :: rest) ++ post).
      rewrite (brace_scan_span (lbrace :: rest) post 0);
        [|discriminate | lia | exact Hin].
      cbn [negb Z.eqb option_map]. now rewrite span_of_app.
    + intros H. apply in_app_or in H as [H|H];
        [exact (target_key_no_brace _ H) | exact (Hmid H)].
Qed.

(** The value of the target is not an object: the routine passes over it
    and returns the object of the next entry. *)
Example extract_takes_next_object :
  extract (qlit "{'1':null,'2':{'x':1}}") 1 = Some (qlit "{'x':1}").
Proof. reflexivity. Qed.

(** ** The number of payloads *)

(** X6: the batch holds one payload for each sender something is extracted
    from and nothing else: at most [count] payloads, and at most [count - 1]
    when the target is one of the [count] parties. *)
Theorem X6_message_count_bounds (round1_outputs : list cstring) (count target_party : Z) :
  message_count (convert_loop round1_outputs count target_party)
  = Z.of_nat (length (filter
      (fun i => match extract (nth i round1_outputs []) target_party with
                | Some _ => true
                | None => false
                end)
      (senders count target_party)))
  /\ 0 <= message_count (convert_loop round1_outputs count target_party)
     <= Z.max 0 count
  /\ (1 <= target_party <= count ->
      message_count (convert_loop round1_outputs count target_party) <= count - 1).
Proof.
  rewrite message_count_eq, extracted_spans_senders.
  assert (Hlen : forall l : list nat,
             length (somes (map (fun i => extract (nth i round1_outputs []) target_party) l))
             = length (filter
                 (fun i => match extract (nth i round1_outputs []) target_party with
                           | Some _ => true
                           | None => false
                           end) l)).
  { induction l as [|i l IH]; [reflexivity|]. simpl.
    destruct (extract (nth i round1_outputs []) target_party); simpl; now rewrite IH. }
  rewrite Hlen.
  pose proof (filter_length_le
                (fun i => match extract (nth i round1_outputs []) target_party with
                          | Some _ => true
                          | None => false
                          end) (senders count target_party)) as H1.
  assert (H2 : (length (senders count target_party) <= Z.to_nat count)%nat).
  { unfold senders, indices.
    etransitivity; [apply filter_length_le | now rewrite length_seq]. }
  split; [reflexivity|]. split; [lia|].
  intros Ht. pose proof (senders_length count target_party Ht). lia.
Qed.

(** ** The batch determines its payloads *)

(** A balanced span is the only balanced prefix of a string. *)
Lemma brace_balanced_prefix_unique (s1 s2 r1 r2 : cstring) :
  brace_balanced s1 -> brace_balanced s2 -> s1 ++ r1 = s2 ++ r2 -> s1 = s2.
Proof.
  assert (Hshort : forall s1 s2 x, brace_balanced s1 -> brace_balanced s2 ->
                                   s2 = s1 ++ x -> x = []).
  { intros a b x Ha Hb ->. destruct x as [|c x]; [reflexivity|]. exfalso.
    destruct Ha as [[ra ->] [Hda _]]. destruct Hb as [_ [_ Hin]].
    specialize (Hin (length (lbrace :: ra))).
    rewrite firstn_app, firstn_all, Nat.sub_diag, app_nil_r in Hin.
    rewrite length_app in Hin. simpl length in Hin.
    specialize (Hin ltac:(lia)). lia. }
  intros H1 H2 Heq.
  destruct (app_eq_app _ _ _ _ Heq) as [x [[Hx _]|[Hx _]]].
  - rewrite (Hshort s2 s1 x H2 H1 Hx) in Hx. now rewrite app_nil_r in Hx.
  - rewrite (Hshort s1 s2 x H1 H2 Hx) in Hx. now rewrite app_nil_r in Hx.
Qed.

Lemma join_cons (s : cstring) (l : list cstring) :
  join (s :: l) = s ++ match l with [] => [] | _ :: _ => comma :: join l end.
Proof. destruct l; [simpl; now rewrite app_nil_r | reflexivity]. Qed.

Lemma join_balanced_injective (l1 l2 : list cstring) :
  Forall brace_balanced l1 -> Forall brace_balanced l2 ->
  join l1 = join l2 -> l1 = l2.
Proof.
  revert l2; induction l1 as [|s1 l1 IH]; intros l2 H1 H2 Heq.
  - destruct l2 as [|s2 l2]; [reflexivity|]. exfalso.
    rewrite join_cons in Heq. inversion H2 as [|? ? [[r ->] _] _]. discriminate Heq.
  - destruct l2 as [|s2 l2].
    + exfalso. rewrite join_cons in Heq.
      inversion H1 as [|? ? [[r ->] _] _]. discriminate Heq.
    + inversion H1 as [|? ? Hs1 Hl1]. inversion H2 as [|? ? Hs2 Hl2]. subst.
      rewrite !join_cons in Heq.
      pose proof (brace_balanced_prefix_unique _ _ _ _ Hs1 Hs2 Heq) as ->.
      apply app_inv_head in Heq. f_equal.
      destruct l1 as [|a l1]; destruct l2 as [|b l2];
        try reflexivity; try discriminate Heq.
      injection Heq as Heq. now apply IH.
Qed.

(** X7: the batch determines the payloads in it: two rounds that give the
    same string have given the same spans, in the same order; no span runs
    into the next one. *)
Theorem X7_batch_determines_spans (round1_outputs round1_outputs' : list cstring)
        (round1_lens round1_lens' : list Z) (count count' target_party target_party' : Z) :
  convert_round1_to_messages round1_outputs round1_lens count target_party
  = convert_round1_to_messages round1_outputs' round1_lens' count' target_party' ->
  extracted_spans round1_outputs count target_party
  = extracted_spans round1_outputs' count' target_party'.
Proof.
  rewrite !convert_round1_to_messages_eq. intros [= H].
  apply app_inv_tail in H.
  apply join_balanced_injective; [apply extracted_spans_balanced .. | exact H].
Qed.

Lemma X7_batch_determines_spans_witness :
  convert_round1_to_messages Sample.round1_outputs Sample.round1_lens 3 1
  = convert_round1_to_messages
      [[]; qlit "'1':{'c':3}"; qlit "'1':{'e':{'f':5}}"] [] 3 1
  /\ extracted_spans Sample.round1_outputs 3 1
     = [qlit "{'c':3}"; qlit "{'e':{'f':5}}"].
Proof.
  assert (H : convert_round1_to_messages Sample.round1_outputs Sample.round1_lens 3 1
              = convert_round1_to_messages
                  [[]; qlit "'1':{'c':3}"; qlit "'1':{'e':{'f':5}}"] [] 3 1)
    by reflexivity.
  split; [exact H|].
  exact (X7_batch_determines_spans _ _ _ _ _ _ _ _ H).
Defined.

(** ** The routine of test_new_ecdsa_functions.c *)

(** Where the key is found, the two searches for a quote stop at the quotes
    of the key itself, and the characters between them are [data]. *)
Lemma data_span (output suf : cstring) :
  strstr output NewEcdsa.data_key = Some suf ->
  strchr suf dquote = Some suf
  /\ exists msg_end, strchr (tl suf) dquote = Some msg_end
                     /\ firstn (ptrdiff msg_end (tl suf)) (tl suf) = lit "data".
Proof.
  intros H. apply strstr_Some_inv in H as [pre [_ Hs]].
  apply starts_with_inv in Hs as [rest ->].
  split; [reflexivity|].
  exists (dquote :: colon :: rest). split; [reflexivity|].
  unfold ptrdiff. cbn [tl NewEcdsa.data_key lit list_ascii_of_string app length].
  replace (S (S (S (S (S (S (length rest))))))
           - S (S (length rest)))%nat with 4%nat by lia.
  reflexivity.
Qed.

Lemma data_loop_body (outputs : list cstring) (target_party : Z) (st : state) (i : nat) :
  Z.of_nat i <> target_party - 1 ->
  NewEcdsa.loop_body outputs target_party st i
  = let result' := if 0 <? message_count st then strcat (result st) [comma]
                   else result st in
    if NewEcdsa.found (nth i outputs [])
    then {| result := strcat result' (lit "data");
            message_count := message_count st + 1 |}
    else {| result := result'; message_count := message_count st |}.
Proof.
  intros Hi. apply Z.eqb_neq in Hi.
  unfold NewEcdsa.loop_body, NewEcdsa.found. rewrite Hi.
  destruct (strstr (nth i outputs []) NewEcdsa.data_key) as [suf|] eqn:E;
    [|reflexivity].
  destruct (data_span _ _ E) as [H1 [msg_end [H2 H3]]].
  rewrite H1, H2. unfold strncat. now rewrite H3.
Qed.

Lemma data_loop_inv (outputs : list cstring) (target_party : Z)
      (l : list nat) (seen : bool) (body : cstring) (st : state) :
  (forall i, In i l -> Z.of_nat i <> target_party - 1) ->
  NewEcdsa.loop_inv seen body st ->
  exists seen',
    NewEcdsa.loop_inv seen'
      (body ++ NewEcdsa.pieces seen (map (fun i => NewEcdsa.found (nth i outputs [])) l))
      (fold_left (NewEcdsa.loop_body outputs target_party) l st)
    /\ message_count (fold_left (NewEcdsa.loop_body outputs target_party) l st)
       = message_count st
         + Z.of_nat (length (filter (fun i => NewEcdsa.found (nth i outputs [])) l)).
Proof.
  revert seen body st; induction l as [|i l IH]; intros seen body st Hl Hinv.
  - exists seen. simpl. rewrite app_nil_r. split; [exact Hinv | lia].
  - cbn [fold_left map NewEcdsa.pieces filter].
    rewrite data_loop_body by (apply Hl; now left).
    destruct Hinv as [Hstr Hseen Hcount Hw]. cbv zeta. rewrite Hseen.
    assert (Hinv' : NewEcdsa.loop_inv seen (body ++ (if seen then [comma] else []))
                      {| result := if seen then strcat (result st) [comma] else result st;
                         message_count := message_count st |}).
    { destruct seen; split; cbn [result message_count str strcat]; auto.
      - rewrite Hstr. reflexivity.
      - now apply strcat_written.
      - now rewrite app_nil_r. }
    destruct (NewEcdsa.found (nth i outputs [])).
    + destruct (IH true (body ++ (if seen then [comma] else []) ++ lit "data")
                  {| result := strcat (if seen then strcat (result st) [comma]
                                       else result st) (lit "data");
                     message_count := message_count st + 1 |}
                  (fun j Hj => Hl j (or_intror Hj))) as [seen' [Hfin Hcnt]].
      { destruct Hinv' as [Hs' _ _ Hw']. cbn [result] in Hs', Hw'. split.
        - cbn [result str strcat]. rewrite Hs'. cbn [app]. now rewrite <- app_assoc.
        - cbn [message_count]. apply Z.ltb_lt. lia.
        - cbn [message_count]. lia.
        - cbn [result]. now apply strcat_written. }
      exists seen'. rewrite orb_true_r. split.
      * rewrite <- !app_assoc in Hfin. exact Hfin.
      * rewrite Hcnt. cbn [message_count length]. lia.
    + destruct (IH seen (body ++ (if seen then [comma] else [])) _
                  (fun j Hj => Hl j (or_intror Hj)) Hinv') as [seen' [Hfin Hcnt]].
      exists seen'. rewrite orb_false_r. split.
      * cbn [app]. rewrite <- app_assoc in Hfin. exact Hfin.
      * exact Hcnt.
Qed.

Lemma data_fold_peers (outputs : list cstring) (target_party : Z)
      (l : list nat) (st : state) :
  fold_left (NewEcdsa.loop_body outputs target_party) l st
  = fold_left (NewEcdsa.loop_body outputs target_party)
              (filter (fun i => negb (Z.of_nat i =? target_party - 1)) l) st.
Proof.
  revert st; induction l as [|i l IH]; intros st; [reflexivity|].
  cbn [fold_left filter].
  destruct (Z.of_nat i =? target_party - 1) eqn:E; cbn [negb].
  - unfold NewEcdsa.loop_body at 2. rewrite E. apply IH.
  - cbn [fold_left]. apply IH.
Qed.

Lemma data_convert_loop (outputs : list cstring) (total_parties target_party : Z) :
  exists seen,
    NewEcdsa.loop_inv seen
      (NewEcdsa.pieces false
         (map (fun i => NewEcdsa.found (nth i outputs []))
              (NewEcdsa.peers total_parties target_party)))
      (NewEcdsa.convert_loop outputs total_parties target_party)
    /\ message_count (NewEcdsa.convert_loop outputs total_parties target_party)
       = Z.of_nat (length (filter (fun i => NewEcdsa.found (nth i outputs []))
                                  (NewEcdsa.peers total_parties target_party))).
Proof.
  unfold NewEcdsa.convert_loop. rewrite data_fold_peers.
  fold (NewEcdsa.peers total_parties target_party).
  destruct (data_loop_inv outputs target_party
              (NewEcdsa.peers total_parties target_party) false []
              {| result := strcpy [lbracket]; message_count := 0 |})
    as [seen [Hinv Hcnt]].
  - intros i Hi. unfold NewEcdsa.peers in Hi. apply filter_In in Hi as [_ Hi].
    now apply negb_true_iff, Z.eqb_neq in Hi.
  - now split.
  - exists seen. split; [exact Hinv | exact Hcnt].
Qed.

Lemma found_has_data (output : cstring) :
  NewEcdsa.found output = true <-> NewEcdsa.has_data output.
Proof.
  unfold NewEcdsa.found, NewEcdsa.has_data. split.
  - destruct (strstr output NewEcdsa.data_key) as [suf|] eqn:E; [|discriminate].
    intros _. apply strstr_Some_inv in E as [pre [-> Hs]].
    apply starts_with_inv in Hs as [rest ->]. now exists pre, rest.
  - intros [pre [rest ->]].
    destruct (strstr (pre ++ NewEcdsa.data_key ++ rest) NewEcdsa.data_key) eqn:E;
      [reflexivity|].
    exfalso. exact (strstr_None_no_occurrence _ _ E pre rest eq_refl).
Qed.

(** X8: the routine of test_new_ecdsa_functions.c appends the four
    characters [data] for every peer whose output holds the text ["data":],
    whatever the value of that field, and a comma in front of every peer
    that comes after the first message counted, with or without a message:
    the string is ["["], these pieces, ["]"], and the count is the number of
    peers with the field. *)
Theorem X8_data_batch (outputs : list cstring) (lens : list Z)
        (total_parties target_party : Z) :
  NewEcdsa.convert_round_to_messages outputs lens total_parties target_party
  = lbracket ::
      NewEcdsa.pieces false
        (map (fun i => NewEcdsa.found (nth i outputs []))
             (NewEcdsa.peers total_parties target_party))
      ++ [rbracket]
  /\ message_count (NewEcdsa.convert_loop outputs total_parties target_party)
     = Z.of_nat (length (filter (fun i => NewEcdsa.found (nth i outputs []))
                                (NewEcdsa.peers total_parties target_party)))
  /\ forall output, NewEcdsa.found output = true <-> NewEcdsa.has_data output.
Proof.
  destruct (data_convert_loop outputs total_parties target_party)
    as [seen [[Hstr _ _ _] Hcnt]].
  split; [|split; [exact Hcnt | exact found_has_data]].
  unfold NewEcdsa.convert_round_to_messages, NewEcdsa.convert_buffer.
  cbn [str strcat]. now rewrite Hstr.
Qed.

(** The values of the fields do not reach the batch, and a peer without the
    field leaves a comma behind. *)
Example data_batch_values_lost :
  NewEcdsa.convert_round_to_messages
    [qlit "{'data':'first'}"; []; qlit "{'data':'second'}"; qlit "{'other':1}"]
    [16; 0; 17; 11] 4 2
  = lit "[data,data,]".
Proof. reflexivity. Qed.

Lemma found_strlen (output : cstring) :
  NewEcdsa.found output = true -> 7 <= strlen output.
Proof.
  intros H. apply found_has_data in H as [pre [rest ->]].
  rewrite !strlen_app. change (strlen NewEcdsa.data_key) with 7.
  pose proof (strlen_nonneg pre). pose proof (strlen_nonneg rest). lia.
Qed.

Lemma pieces_strlen (outputs : list cstring) (l : list nat) (seen : bool) :
  strlen (NewEcdsa.pieces seen (map (fun i => NewEcdsa.found (nth i outputs [])) l))
  <= sumZ (map (fun i => strlen (nth i outputs []) + 1) l).
Proof.
  revert seen; induction l as [|i l IH]; intros seen; [unfold strlen; simpl; lia|].
  cbn [map NewEcdsa.pieces]. rewrite !strlen_app.
  change (sumZ (?x :: ?r)) with (x + sumZ r).
  specialize (IH (seen || NewEcdsa.found (nth i outputs []))).
  pose proof (strlen_nonneg (nth i outputs [])).
  destruct (NewEcdsa.found (nth i outputs [])) eqn:E.
  - apply found_strlen in E. destruct seen; unfold strlen in *; simpl length in *; lia.
  - destruct seen; unfold strlen in *; simpl length in *; lia.
Qed.

Lemma data_fold_add_len (lens : list Z) (target_party : Z) (l : list nat) (a t : Z) :
  fold_left (NewEcdsa.add_len lens target_party) l (Some a) = Some t ->
  t = a + sumZ (map (fun i => nth i lens 0 + 1)
                    (filter (fun i => negb (Z.of_nat i =? target_party - 1)) l)).
Proof.
  revert a; induction l as [|i l IH]; intros a; cbn [fold_left filter].
  - intros [= <-]. simpl. lia.
  - destruct (NewEcdsa.add_len lens target_party (Some a) i) as [a'|] eqn:E.
    + intros H. apply IH in H. unfold NewEcdsa.add_len in E.
      destruct (Z.of_nat i =? target_party - 1); cbn [negb] in *.
      * injection E as <-. exact H.
      * destruct (int_of (nth i lens 0 + 1)) as [d|] eqn:E1; [|discriminate].
        apply int_of_Some in E1 as [-> _]. apply int_of_Some in E as [-> _].
        simpl. lia.
    + assert (Hnone : forall l', fold_left (NewEcdsa.add_len lens target_party) l' None = None)
        by (induction l'; [reflexivity | assumption]).
      rewrite Hnone. discriminate.
Qed.

(** X9: in the routine of test_new_ecdsa_functions.c, when the reported
    length of each output is the length of its string, the bytes written
    into [result] are at most [total_len + 1], within the [total_len + 100]
    bytes allocated. *)
Theorem X9_data_batch_fits (outputs : list cstring) (lens : list Z)
        (total_parties target_party : Z) :
  (forall i, (i < Z.to_nat total_parties)%nat ->
             nth i lens 0 = strlen (nth i outputs [])) ->
  written (NewEcdsa.convert_buffer outputs total_parties target_party)
  = strlen (NewEcdsa.convert_round_to_messages outputs lens total_parties target_party) + 1
  /\ (forall t, NewEcdsa.total_len lens total_parties target_party = Some t ->
                written (NewEcdsa.convert_buffer outputs total_parties target_party)
                <= t + 1)
  /\ (forall sz, NewEcdsa.malloc_size lens total_parties target_party = Some sz ->
                 written (NewEcdsa.convert_buffer outputs total_parties target_party)
                 <= sz).
Proof.
  intros Hlens.
  destruct (data_convert_loop outputs total_parties target_party)
    as [seen [[Hstr _ _ Hw] _]].
  assert (Hwritten : written (NewEcdsa.convert_buffer outputs total_parties target_party)
                     = strlen (str (NewEcdsa.convert_buffer outputs total_parties target_party)) + 1)
    by (unfold NewEcdsa.convert_buffer; now apply strcat_written).
  assert (Hbound : forall t, NewEcdsa.total_len lens total_parties target_party = Some t ->
             written (NewEcdsa.convert_buffer outputs total_parties target_party) <= t + 1).
  { intros t Ht. apply data_fold_add_len in Ht.
    fold (NewEcdsa.peers total_parties target_party) in Ht.
    rewrite Hwritten. unfold NewEcdsa.convert_buffer. cbn [str strcat].
    rewrite Hstr.
    change (lbracket :: ?b) with ([lbracket] ++ b). rewrite !strlen_app.
    change (strlen [lbracket]) with 1. change (strlen [rbracket]) with 1.
    pose proof (pieces_strlen outputs (NewEcdsa.peers total_parties target_party) false) as Hp.
    assert (Hsum : sumZ (map (fun i => strlen (nth i outputs []) + 1)
                             (NewEcdsa.peers total_parties target_party))
                   = sumZ (map (fun i => nth i lens 0 + 1)
                               (NewEcdsa.peers total_parties target_party))).
    { f_equal. apply map_ext_in. intros i Hi.
      unfold NewEcdsa.peers in Hi. apply filter_In in Hi as [Hi _].
      apply in_seq in Hi. rewrite Hlens; [reflexivity | lia]. }
    lia. }
  split; [exact Hwritten|]. split; [exact Hbound|].
  intros sz Hsz. unfold NewEcdsa.malloc_size in Hsz.
  destruct (NewEcdsa.total_len lens total_parties target_party) as [t|] eqn:Ht;
    [|discriminate].
  apply int_of_Some in Hsz as [-> _]. specialize (Hbound t eq_refl). lia.
Qed.

Lemma X9_data_batch_fits_witness :
  (forall i, (i < Z.to_nat 4)%nat ->
             nth i [16; 0; 17; 11] 0
             = strlen (nth i [qlit "{'data':'first'}"; []; qlit "{'data':'second'}";
                              qlit "{'other':1}"] []))
  /\ NewEcdsa.malloc_size [16; 0; 17; 11] 4 2 = Some 149
  /\ written (NewEcdsa.convert_buffer
                [qlit "{'data':'first'}"; []; qlit "{'data':'second'}";
                 qlit "{'other':1}"] 4 2) <= 149.
Proof.
  assert (H : forall i, (i < Z.to_nat 4)%nat ->
             nth i [16; 0; 17; 11] 0
             = strlen (nth i [qlit "{'data':'first'}"; []; qlit "{'data':'second'}";
                              qlit "{'other':1}"] [])).
  { intros i Hi. destruct i as [|[|[|[|i]]]]; try reflexivity. simpl in Hi; lia. }
  split; [exact H|]. split; [reflexivity|].
  exact (proj2 (proj2 (X9_data_batch_fits _ [16; 0; 17; 11] 4 2 H)) 149 eq_refl).
Defined.

(** ** The loops of [test_refresh] *)

(** The [while] loop entered behind the opening brace with a count of 1 ends
    like the [do ... while] loop entered at the brace with a count of 0. *)
Lemma brace_while_scan (s : cstring) (d : Z) :
  0 < d -> s <> [] -> Refresh.brace_while d s = brace_scan d s.
Proof.
  revert d; induction s as [|c s IH]; intros d Hd Hne; [congruence|].
  rewrite brace_scan_cons. cbn [Refresh.brace_while].
  replace (0 <? d) with true by (symmetry; now apply Z.ltb_lt).
  replace (if Ascii.eqb c lbrace then d + 1
           else if Ascii.eqb c rbrace then d - 1 else d)
    with (d + brace_delta c)
    by (unfold brace_delta; destruct (Ascii.eqb c lbrace);
        [|destruct (Ascii.eqb c rbrace)]; lia).
  destruct s as [|c' s']; [now rewrite andb_false_r|].
  destruct (0 <? d + brace_delta c) eqn:E; cbn [andb negb].
  - apply IH; [now apply Z.ltb_lt | discriminate].
  - cbn [Refresh.brace_while]. now rewrite E.
Qed.

Lemma brace_while_after_brace (rest : cstring) :
  Refresh.brace_while 1 rest = brace_scan 0 (lbrace :: rest).
Proof.
  rewrite brace_scan_cons. change (0 + brace_delta lbrace) with 1.
  destruct rest as [|c rest]; [reflexivity|].
  cbn [Z.ltb andb negb]. change (0 <? 1) with true. cbn [andb].
  apply brace_while_scan; [lia | discriminate].
Qed.

Lemma skipn_key (key rest : cstring) : skipn (length key) (key ++ rest) = rest.
Proof. induction key as [|c key IH]; [reflexivity | exact IH]. Qed.

(** One round of the loop of [test_refresh] on a message in which the entry
    opens right behind the key does what one round of the routine does. *)
Lemma inner_body_loop_body (round_messages : list Refresh.MessageData)
      (outputs : list cstring) (i : Z) (inline : cstring * bool) (st : state) (j : nat) :
  (Z.of_nat j <> i ->
   Refresh.data (nth j round_messages RefreshLoops.unset) = Some (nth j outputs [])
   /\ RefreshLoops.entry_follows_key (nth j outputs []) (i + 1)) ->
  RefreshLoops.same_state inline st ->
  RefreshLoops.same_state (Refresh.inner_body round_messages i inline j)
                          (loop_body outputs (i + 1) st j).
Proof.
  intros Hj [Hstr [Hfirst Hcount]]. destruct inline as [agg first].
  cbn [fst snd] in Hstr, Hfirst.
  unfold Refresh.inner_body, loop_body.
  replace (Z.of_nat j + 1 =? i + 1) with (Z.of_nat j =? i)
    by (destruct (Z.of_nat j =? i) eqn:E; symmetry;
        [apply Z.eqb_eq in E; apply Z.eqb_eq | apply Z.eqb_neq in E; apply Z.eqb_neq];
        lia).
  destruct (Z.of_nat j =? i) eqn:E; [now repeat split|].
  apply Z.eqb_neq in E. destruct (Hj E) as [Hdata Hentry].
  fold RefreshLoops.unset. rewrite Hdata.
  destruct Hentry as [Habs | [pre [rest [Heq Hocc]]]].
  - unfold locate.
    destruct (strstr (nth j outputs []) (target_key (i + 1))) as [suf|] eqn:Es.
    + exfalso. apply strstr_Some_inv in Es as [p [Hp Hs]].
      apply starts_with_inv in Hs as [r ->]. exact (Habs p r Hp).
    + destruct (negb (2 <? strlen (nth j outputs []))); now repeat split.
  - assert (Hlong : (2 <? strlen (nth j outputs [])) = true).
    { apply Z.ltb_lt. rewrite Heq, !strlen_app.
      pose proof (strlen_nonneg pre). pose proof (strlen_nonneg (lbrace :: rest)).
      unfold target_key, strlen. simpl length. rewrite length_app. simpl length. lia. }
    rewrite Hlong. cbn [negb]. unfold locate. rewrite Heq.
    rewrite (strstr_first _ _ _ Hocc), skipn_key.
    rewrite (strchr_skip _ _ _ (target_key_no_brace (i + 1))).
    rewrite Ascii.eqb_refl. cbn [negb].
    rewrite brace_while_after_brace.
    destruct (brace_scan 0 (lbrace :: rest)) as [brace_count msg_end].
    destruct (brace_count =? 0); cbn [negb]; [|now repeat split].
    unfold RefreshLoops.same_state. cbn [fst snd result message_count].
    rewrite Hfirst. unfold strncat.
    destruct (0 <? message_count st) eqn:Epos; cbn [negb str strcat].
    + rewrite Hstr. repeat split; [| lia].
      symmetry. apply negb_false_iff, Z.ltb_lt. lia.
    + rewrite Hstr. repeat split; [| lia].
      symmetry. apply negb_false_iff, Z.ltb_lt. lia.
Qed.

(** X10: the loops of [test_refresh] that build the input of a refresh
    round for party [i + 1] by hand give the same string as
    [convert_round_to_messages] called for that party, provided every other
    party's message is there and, where it holds the text of the key at all,
    the entry opens right behind the first occurrence (the loops test the
    character behind the key, the routine looks for the next brace). *)
Theorem X10_refresh_loops_agree (round_messages : list Refresh.MessageData)
        (outputs : list cstring) (lens : list Z) (i : Z) :
  (forall j, (j < Z.to_nat Refresh.TOTAL_PARTIES)%nat -> Z.of_nat j <> i ->
             Refresh.data (nth j round_messages RefreshLoops.unset)
             = Some (nth j outputs [])
             /\ RefreshLoops.entry_follows_key (nth j outputs []) (i + 1)) ->
  Refresh.aggregated_messages round_messages i
  = Refresh.convert_round_to_messages outputs lens Refresh.TOTAL_PARTIES (i + 1).
Proof.
  intros H.
  unfold Refresh.aggregated_messages, Refresh.convert_round_to_messages,
    convert_round1_to_messages, convert_buffer, convert_loop.
  cbn [str strcat]. f_equal.
  assert (Hall : forall l inline st,
             (forall j, In j l -> (j < Z.to_nat Refresh.TOTAL_PARTIES)%nat) ->
             RefreshLoops.same_state inline st ->
             RefreshLoops.same_state
               (fold_left (Refresh.inner_body round_messages i) l inline)
               (fold_left (loop_body outputs (i + 1)) l st)).
  { induction l as [|j l IH]; intros inline st Hl Hs; [exact Hs|].
    cbn [fold_left]. apply IH; [intros k Hk; apply Hl; now right|].
    apply inner_body_loop_body; [|exact Hs].
    intros Hne. apply H; [apply Hl; now left | exact Hne]. }
  apply Hall.
  - intros j Hj. unfold indices in Hj. apply in_seq in Hj. lia.
  - repeat split. cbn [message_count]. lia.
Qed.

Lemma X10_refresh_loops_agree_witness :
  (forall j, (j < Z.to_nat Refresh.TOTAL_PARTIES)%nat -> Z.of_nat j <> 0 ->
             Refresh.data (nth j Sample.withheld_messages RefreshLoops.unset)
             = Some (nth j Sample.withheld_outputs [])
             /\ RefreshLoops.entry_follows_key (nth j Sample.withheld_outputs []) (0 + 1))
  /\ Refresh.aggregated_messages Sample.withheld_messages 0
     = Refresh.convert_round_to_messages Sample.withheld_outputs [25; 25; 13] 3 1.
Proof.
  assert (H : forall j, (j < Z.to_nat Refresh.TOTAL_PARTIES)%nat -> Z.of_nat j <> 0 ->
             Refresh.data (nth j Sample.withheld_messages RefreshLoops.unset)
             = Some (nth j Sample.withheld_outputs [])
             /\ RefreshLoops.entry_follows_key (nth j Sample.withheld_outputs []) (0 + 1)).
  { intros j Hj Hne. destruct j as [|[|[|j]]]; [lia | | | simpl in Hj; lia].
    - split; [reflexivity|]. right.
      exists (qlit "{"), (qlit "'c':3},'3':{'d':4}}").
      split; [reflexivity | first_key].
    - split; [reflexivity|]. left. apply key_absent_strstr. reflexivity. }
  split; [exact H|].
  exact (X10_refresh_loops_agree Sample.withheld_messages Sample.withheld_outputs
                                 [25; 25; 13] 0 H).
Defined.

(** The loops skip an entry that does not open right behind the key; the
    routine looks further and takes it. *)
Example refresh_loops_differ :
  Refresh.aggregated_messages
    [{| Refresh.data := Some []; Refresh.len := 0 |};
     {| Refresh.data := Some (qlit "{'1': {'c':3}}"); Refresh.len := 15 |}] 0
  = qlit "[]"
  /\ Refresh.convert_round_to_messages [[]; qlit "{'1': {'c':3}}"] [0; 15] 3 1
     = qlit "[{'c':3}]".
Proof. split; reflexivity. Qed.

Lemma target_key_strlen (target_party : Z) : 3 <= strlen (target_key target_party).
Proof.
  unfold target_key, strlen. simpl length. rewrite length_app. simpl length. lia.
Qed.

(** One round of the loop of [test_refresh] adds at most as many characters
    as the message it reads has. *)
Lemma inner_body_growth (round_messages : list Refresh.MessageData) (i : Z)
      (inline : cstring * bool) (j : nat) :
  strlen (fst (Refresh.inner_body round_messages i inline j))
  <= strlen (fst inline) + RefreshLoops.peer_bytes round_messages i j.
Proof.
  destruct inline as [agg first].
  unfold Refresh.inner_body, RefreshLoops.peer_bytes, RefreshLoops.text.
  fold RefreshLoops.unset.
  destruct (Z.of_nat j =? i); [cbn [fst]; lia|].
  destruct (Refresh.data (nth j round_messages RefreshLoops.unset)) as [msg_data|];
    [|unfold strlen; cbn [fst length]; lia].
  pose proof (strlen_nonneg msg_data) as Hm.
  destruct (negb (2 <? strlen msg_data)); [cbn [fst]; lia|].
  destruct (strstr msg_data (target_key (i + 1))) as [suf|] eqn:E; [|cbn [fst]; lia].
  apply strstr_Some_inv in E as [pre [-> Hs]].
  apply starts_with_inv in Hs as [r ->]. rewrite skipn_key.
  destruct r as [|c after_brace]; [cbn [fst]; lia|].
  destruct (negb (Ascii.eqb c lbrace)); [cbn [fst]; lia|].
  destruct (Refresh.brace_while 1 after_brace) as [brace_count msg_end].
  destruct (negb (brace_count =? 0)); [cbn [fst]; lia|].
  cbn [fst]. rewrite !strlen_app.
  pose proof (target_key_strlen (i + 1)). pose proof (strlen_nonneg pre).
  assert (Hspan : strlen (firstn (ptrdiff msg_end (c :: after_brace)) (c :: after_brace))
                  <= strlen (c :: after_brace))
    by (unfold strlen; rewrite length_firstn; lia).
  destruct first; rewrite ?strlen_app; change (strlen [comma]) with 1; lia.
Qed.

Lemma refresh_fold_growth (round_messages : list Refresh.MessageData) (i : Z)
      (l : list nat) (inline : cstring * bool) :
  strlen (fst (fold_left (Refresh.inner_body round_messages i) l inline))
  <= strlen (fst inline)
     + sumZ (map (RefreshLoops.peer_bytes round_messages i) l).
Proof.
  revert inline; induction l as [|j l IH]; intros inline; [simpl; lia|].
  cbn [fold_left map]. change (sumZ (?x :: ?r)) with (x + sumZ r).
  specialize (IH (Refresh.inner_body round_messages i inline j)).
  pose proof (inner_body_growth round_messages i inline j). lia.
Qed.

(** X11: the string the loops of [test_refresh] build in the 20000 bytes of
    [aggregated_messages] takes, with its terminator, at most three bytes
    more than the messages of the other parties have together; the buffer
    is large enough whenever these messages have at most 19997 bytes. *)
Theorem X11_refresh_buffer_suffices (round_messages : list Refresh.MessageData) (i : Z) :
  sumZ (map (RefreshLoops.peer_bytes round_messages i)
            (indices Refresh.TOTAL_PARTIES))
  <= RefreshLoops.aggregated_size - 3 ->
  strlen (Refresh.aggregated_messages round_messages i) + 1
  <= 3 + sumZ (map (RefreshLoops.peer_bytes round_messages i)
                   (indices Refresh.TOTAL_PARTIES))
  /\ strlen (Refresh.aggregated_messages round_messages i) + 1
     <= RefreshLoops.aggregated_size.
Proof.
  intros Hsum. unfold Refresh.aggregated_messages. rewrite strlen_app.
  pose proof (refresh_fold_growth round_messages i (indices Refresh.TOTAL_PARTIES)
                                  ([lbracket], true)) as H.
  cbn [fst] in H. change (strlen [lbracket]) with 1 in H.
  change (strlen [rbracket]) with 1. lia.
Qed.

Lemma X11_refresh_buffer_suffices_witness :
  sumZ (map (RefreshLoops.peer_bytes Sample.withheld_messages 0)
            (indices Refresh.TOTAL_PARTIES))
  <= RefreshLoops.aggregated_size - 3
  /\ strlen (Refresh.aggregated_messages Sample.withheld_messages 0) + 1
     <= RefreshLoops.aggregated_size.
Proof.
  assert (H : sumZ (map (RefreshLoops.peer_bytes Sample.withheld_messages 0)
                        (indices Refresh.TOTAL_PARTIES))
              <= RefreshLoops.aggregated_size - 3)
    by (vm_compute; discriminate).
  split; [exact H|].
  exact (proj2 (X11_refresh_buffer_suffices Sample.withheld_messages 0 H)).
Defined.

(** ** The inline copy in [main] of test_complete_ed25519.c *)

Lemma formatted_input_extract (round_data : cstring) (target_party : Z) (span : cstring) :
  extract round_data target_party = Some span ->
  Ed25519Main.formatted_input round_data (target_key target_party)
  = Some (lbracket :: span ++ [rbracket]).
Proof.
  unfold extract, locate, Ed25519Main.formatted_input.
  destruct (strstr round_data (target_key target_party)) as [target_pos|];
    [|discriminate].
  destruct (strchr target_pos lbrace) as [msg_start|]; [|discriminate].
  destruct (brace_scan 0 msg_start) as [brace_count msg_end].
  destruct (negb (brace_count =? 0)); [discriminate|].
  cbn [option_map]. intros [= <-]. reflexivity.
Qed.

(** X12: in the Ed25519 signing of test_complete_ed25519.c, where [main]
    extracts the peer's message by hand, the input it builds for P1 from
    P2's output (for P2 from P1's output) is the string
    [convert_round1_to_messages] returns for that party in a round of the
    two, whenever the routine extracts a span from that output. *)
Theorem X12_inline_copy_agrees (p1_round_data p2_round_data : cstring)
        (round_lens : list Z) :
  (extract p2_round_data 1 <> None ->
   Ed25519Main.formatted_input_p1 p2_round_data
   = Some (convert_round1_to_messages [p1_round_data; p2_round_data] round_lens 2 1))
  /\ (extract p1_round_data 2 <> None ->
      Ed25519Main.formatted_input_p2 p1_round_data
      = Some (convert_round1_to_messages [p1_round_data; p2_round_data] round_lens 2 2)).
Proof.
  split; intros H.
  - destruct (extract p2_round_data 1) as [span|] eqn:E; [|congruence].
    unfold Ed25519Main.formatted_input_p1.
    change Ed25519Main.target_key_p1 with (target_key 1).
    rewrite (formatted_input_extract _ _ _ E), convert_round1_to_messages_eq.
    change (extracted_spans [p1_round_data; p2_round_data] 2 1)
      with (somes [None; extract p2_round_data 1]).
    now rewrite E.
  - destruct (extract p1_round_data 2) as [span|] eqn:E; [|congruence].
    unfold Ed25519Main.formatted_input_p2.
    change Ed25519Main.target_key_p2 with (target_key 2).
    rewrite (formatted_input_extract _ _ _ E), convert_round1_to_messages_eq.
    change (extracted_spans [p1_round_data; p2_round_data] 2 2)
      with (somes [extract p1_round_data 2; None]).
    now rewrite E.
Qed.

Lemma X12_inline_copy_agrees_witness :
  extract (qlit "{'1':{'c':3}}") 1 <> None
  /\ Ed25519Main.formatted_input_p1 (qlit "{'1':{'c':3}}")
     = Some (convert_round1_to_messages
               [qlit "{'2':{'a':1}}"; qlit "{'1':{'c':3}}"] [13; 13] 2 1).
Proof.
  assert (H : extract (qlit "{'1':{'c':3}}") 1 <> None) by discriminate.
  split; [exact H|].
  exact (proj1 (X12_inline_copy_agrees (qlit "{'2':{'a':1}}") (qlit "{'1':{'c':3}}")
                                       [13; 13]) H).
Defined.

(** X13: the inline copy gives up ([goto cleanup]) exactly when the text of
    the key does not occur in the peer's output, or no ['{'] follows its
    first occurrence; in every other case an input is built and the engine
    is called with it. *)
Theorem X13_inline_copy_gives_up (round_data : cstring) (target_party : Z) :
  Ed25519Main.formatted_input round_data (target_key target_party) = None
  <-> key_absent round_data target_party
      \/ exists pre rest,
          round_data = pre ++ target_key target_party ++ rest
          /\ first_occurrence pre (target_key target_party)
          /\ ~ In lbrace rest.
Proof.
  unfold Ed25519Main.formatted_input. split.
  - destruct (strstr round_data (target_key target_party)) as [target_pos|] eqn:Es.
    + destruct (strchr target_pos lbrace) as [msg_start|] eqn:Ec.
      * destruct (brace_scan 0 msg_start). discriminate.
      * intros _. right.
        apply strstr_Some_first in Es as [pre [rest [-> [-> Hfirst]]]].
        exists pre, rest. repeat split; [exact Hfirst|].
        apply strchr_None_absent in Ec. intros Hin. apply Ec.
        apply in_or_app. now right.
    + intros _. left. now apply key_absent_strstr.
  - intros [Habs | [pre [rest [-> [Hfirst Hno]]]]].
    + destruct (strstr round_data (target_key target_party)) as [suf|] eqn:Es;
        [|reflexivity].
      exfalso. apply strstr_Some_inv in Es as [p [Hp Hs]].
      apply starts_with_inv in Hs as [r ->]. exact (Habs p r Hp).
    + rewrite (strstr_first _ _ _ Hfirst).
      assert (Hc : strchr (target_key target_party ++ rest) lbrace = None).
      { apply strchr_None_absent. intros Hin. apply in_app_or in Hin as [Hin|Hin];
          [exact (target_key_no_brace _ Hin) | exact (Hno Hin)]. }
      now rewrite Hc.
Qed.

(** ** Every run of the ECDSA signing part *)

Import EcdsaSign.

Lemma follows_chain_nil (c : call) :
  forall k prev next,
    nth_error [c] k = Some prev -> nth_error [c] (S k) = Some next ->
    follows prev next.
Proof. intros [|[|k]] prev next H1 H2; simpl in *; discriminate. Qed.

Lemma follows_chain_cons (c d : call) (rest : list call) :
  follows c d ->
  (forall k prev next,
      nth_error (d :: rest) k = Some prev ->
      nth_error (d :: rest) (S k) = Some next -> follows prev next) ->
  forall k prev next,
    nth_error (c :: d :: rest) k = Some prev ->
    nth_error (c :: d :: rest) (S k) = Some next -> follows prev next.
Proof.
  intros Hcd Hrest [|k] prev next H1 H2.
  - simpl in H1, H2. injection H1 as <-. injection H2 as <-. exact Hcd.
  - exact (Hrest k prev next H1 H2).
Qed.

(** X14: whatever the engine answers, the signing part of [main] in
    test_complete_ecdsa.c makes between one and five calls of the engine,
    the first ones of the sequence step1, p2_step1, p1_step2, p2_step2,
    p1_step3 on the handles P1, P2, P1, P2, P1: each is that engine
    function called on the state its handle has by then, with the buffers
    the call before it has stored.  Every call but the last has returned 0;
    [main] returns 0 when the last has too, which only the fifth can, and 1
    when it has not: nothing is called after a failure. *)
Theorem X14_sign_run_prefix (session : Type)
        (go_ecdsa_sign_step1 : session -> Z * session * blob)
        (go_ecdsa_sign_p2_step1 : session -> blob -> Z * session * (blob * blob))
        (go_ecdsa_sign_p1_step2 : session -> blob -> blob -> Z * session * (blob * blob))
        (go_ecdsa_sign_p2_step2 : session -> blob -> blob -> Z * session * (blob * blob))
        (go_ecdsa_sign_p1_step3 : session -> blob -> blob -> Z * session * (blob * blob))
        (p1_sign_handle p2_sign_handle : session) :
  let run := sign_run go_ecdsa_sign_step1 go_ecdsa_sign_p2_step1
                      go_ecdsa_sign_p1_step2 go_ecdsa_sign_p2_step2
                      go_ecdsa_sign_p1_step3 p1_sign_handle p2_sign_handle in
  let made := length (snd run) in
  (fst run = 0 \/ fst run = 1)
  /\ (1 <= made <= 5)%nat
  /\ ((made < 5)%nat -> fst run = 1)
  /\ map fn (snd run)
     = firstn made [sign_step1; sign_p2_step1; sign_p1_step2; sign_p2_step2;
                    sign_p1_step3]
  /\ map on (snd run) = firstn made [P1; P2; P1; P2; P1]
  /\ (forall c, nth_error (snd run) 0 = Some c -> inputs c = [])
  /\ (forall k prev next,
         nth_error (snd run) k = Some prev ->
         nth_error (snd run) (S k) = Some next -> follows prev next)
  /\ exists last,
      EcdsaReplay.replays go_ecdsa_sign_step1 go_ecdsa_sign_p2_step1
        go_ecdsa_sign_p1_step2 go_ecdsa_sign_p2_step2 go_ecdsa_sign_p1_step3
        (p1_sign_handle, p2_sign_handle) (snd run)
        (repeat 0 (made - 1) ++ [last])
      /\ fst run = (if last =? 0 then 0 else 1)
      /\ (last = 0 -> made = 5%nat).
Proof.
  cbv zeta. unfold sign_run.
  destruct (go_ecdsa_sign_step1 p1_sign_handle) as [[r1 h1] commit] eqn:G1.
  destruct (go_ecdsa_sign_p2_step1 p2_sign_handle commit) as [[r2 h2] [pf2 rr]] eqn:G2.
  destruct (go_ecdsa_sign_p1_step2 h1 pf2 rr) as [[r3 h3] [pf1 cd]] eqn:G3.
  destruct (go_ecdsa_sign_p2_step2 h2 cd pf1) as [[r4 h4] [ek af]] eqn:G4.
  destruct (go_ecdsa_sign_p1_step3 h3 ek af) as [[r5 h5] [sr ss]] eqn:G5.
  assert (Hlast : forall r, (r =? 0) = false -> 0 = (if r =? 0 then 0 else 1) -> False)
    by (intros r ->; discriminate).
  destruct (r1 =? 0) eqn:E1; [apply Z.eqb_eq in E1; subst r1|];
    [destruct (r2 =? 0) eqn:E2; [apply Z.eqb_eq in E2; subst r2|];
     [destruct (r3 =? 0) eqn:E3; [apply Z.eqb_eq in E3; subst r3|];
      [destruct (r4 =? 0) eqn:E4; [apply Z.eqb_eq in E4; subst r4|];
       [destruct (r5 =? 0) eqn:E5|]|]|]|];
    cbn [negb fst snd length map firstn fn on];
    (refine (conj _ (conj _ (conj _ (conj _ (conj _ (conj _ (conj _ _)))))));
     [ auto
     | lia
     | intros; first [reflexivity | lia]
     | reflexivity
     | reflexivity
     | intros c [= <-]; reflexivity
     | repeat (apply follows_chain_cons;
               [split; [discriminate | simpl; tauto]|]);
       apply follows_chain_nil
     | ]).
  all: match goal with
       | E : (?r =? 0) = _ |- _ => exists r; rewrite E
       end;
    (split; [|split; [reflexivity | first [reflexivity | intros ->; discriminate]]]);
    cbn [Nat.sub repeat app EcdsaReplay.replays EcdsaReplay.engine_call
         EcdsaReplay.behind EcdsaReplay.leave fst snd fn on inputs outputs];
    repeat (first [rewrite G1 | rewrite G2 | rewrite G3 | rewrite G4 | rewrite G5];
            eexists; split; [reflexivity|];
            cbn [EcdsaReplay.replays EcdsaReplay.engine_call
                 EcdsaReplay.behind EcdsaReplay.leave fst snd fn on inputs outputs]);
    exact I.
Qed.

(** ** What a return value of a binding tells the Java caller *)

Import Jni.

(** X15: a binding of mpc_jni.c leaves an exception pending exactly when it
    is one of the ECDSA bindings and the engine result is nonzero, so none
    throws on success.  An init binding returns the handle the engine
    stored on success and 0 otherwise.  Of the other bindings, an ECDSA one
    returns NULL exactly when the engine result is nonzero; one of the key
    generation, refresh and Ed25519 sections returns NULL also when the
    engine, with result 0, left one of the out-pointers it tests at NULL. *)
Theorem X15_return_values (b : binding) (o : engine_out) :
  (pending (MPCNative b o) <> None
   <-> is_ecdsa b = true /\ engine_result o <> 0)
  /\ (JniReturn.is_init b = true ->
      returned (MPCNative b o)
      = jlong (if engine_result o =? 0 then handle o else 0))
  /\ (JniReturn.is_init b = false ->
      (returned (MPCNative b o) = jnull
       <-> engine_result o <> 0
           \/ (is_ecdsa b = false /\ In None (JniReturn.null_tested b o)))).
Proof.
  destruct (engine_result o =? 0) eqn:E;
    [apply Z.eqb_eq in E as E' | apply Z.eqb_neq in E as E'];
    (destruct b; cbn [is_ecdsa MPCNative JniReturn.is_init JniReturn.null_tested];
     unfold init_binding, round_binding, ed25519SignRound3_binding,
       ecdsa_bytes_binding, ecdsa_pair_binding, ecdsa_init_binding,
       ecdsa_signature_binding, throw_runtime, byte_array, string_utf;
     rewrite E; cbn [negb orb];
     try destruct (out_data o); try destruct (out_data2 o);
     cbn [is_null orb ret returned pending In];
     (split; [|split]);
     try discriminate; try reflexivity;
     intuition (try discriminate; try congruence)).
Qed.
